(** * Offset-exact extraction and patching of localizable text

    A shallow embedding of the extraction / patch core of the documentation
    localization action: [src/utils.js] (the Patch Applier and its string
    helpers) and the document walker (the Frontmatter, Reference and
    Content extractors).

    Conventions of the embedding.
    - A JavaScript string is a [string]: a sequence of code units over
      the ASCII alphabet (a code above 127 is carried along as a symbol
      without case that is neither white space nor a line terminator).
      Offsets and lengths are [Z], as JavaScript numbers holding integers.
    - [undefined] / [null] property values are [None].
    - A thrown exception is [Throw e]; a normal completion is [Ok v].
    - Arrays mutated in place ([changes], [node.children]) are passed and
      returned explicitly. *)

From Stdlib Require Import ZArith List Bool Ascii String Lia.
From Stdlib Require Import DecimalString Sorting.Sorted Sorting.Permutation.
Import ListNotations.

Local Open Scope Z_scope.
Local Open Scope string_scope.

(* ================================================================== *)
(** ** Results of fallible code *)

Inductive Error : Type :=
| InvalidIndices (start end_ : Z)   (* new Error(`Invalid indices provided: ...`) *)
| TypeError.                        (* property access on undefined / null *)

Inductive Result (A : Type) : Type :=
| Ok (a : A)
| Throw (e : Error).

Arguments Ok {A} a.
Arguments Throw {A} e.

Definition bind {A B : Type} (m : Result A) (f : A -> Result B) : Result B :=
  match m with
  | Ok a => f a
  | Throw e => Throw e
  end.

Notation "x <- m ;; k" := (bind m (fun x => k))
  (at level 61, m at next level, right associativity).
Notation "' pat <- m ;; k" := (bind m (fun x => match x with pat => k end))
  (at level 61, pat pattern, m at next level, right associativity).

(** Reading a property of a possibly-undefined object. *)
Definition required {A : Type} (o : option A) : Result A :=
  match o with
  | Some a => Ok a
  | None => Throw TypeError
  end.

(* ================================================================== *)
(** ** The string built-ins of the runtime used by the code *)

Module JS.

Definition newline : ascii := "010"%char.
Definition dquote : ascii := "034"%char.

(** [s.length] *)
Definition len (s : string) : Z := Z.of_nat (String.length s).

Fixpoint take (n : nat) (s : string) : string :=
  match n, s with
  | S n', String c s' => String c (take n' s')
  | _, _ => EmptyString
  end.

Fixpoint drop (n : nat) (s : string) : string :=
  match n, s with
  | S n', String _ s' => drop n' s'
  | _, _ => s
  end.

(** Index arguments of [substring] are clamped into [0, s.length]. *)
Definition clamp (s : string) (n : Z) : nat :=
  Z.to_nat (Z.min (Z.max n 0) (len s)).

(** [s.substring(a, b)]: both indices clamped, swapped when [a > b]. *)
Definition substring (s : string) (a b : Z) : string :=
  let a' := clamp s a in
  let b' := clamp s b in
  take (Nat.max a' b' - Nat.min a' b') (drop (Nat.min a' b') s).

(** [s.substring(a)]: the end index defaults to [s.length]. *)
Definition substringFrom (s : string) (a : Z) : string :=
  substring s a (len s).

(** [s.slice(a, b)]: a negative index counts from the end; nothing is
    swapped, an empty range gives the empty string. *)
Definition sliceIndex (s : string) (n : Z) : Z :=
  if (n <? 0)%Z then Z.max (len s + n) 0 else Z.min n (len s).

Definition slice (s : string) (a b : Z) : string :=
  let from := sliceIndex s a in
  let to := sliceIndex s b in
  take (Z.to_nat (Z.max (to - from) 0)) (drop (Z.to_nat from) s).

(** String conversion of a possibly-undefined value, as performed by
    [+] and by template literals. *)
Definition toStr (v : option string) : string :=
  match v with
  | Some s => s
  | None => "undefined"
  end.

(** Decimal rendering of an integer-valued number. *)
Definition showZ (z : Z) : string := NilZero.string_of_int (Z.to_int z).

(** [toLocaleUpperCase] on the ASCII letters (root locale); every other
    code unit of the model is left as it is. *)
Definition upperChar (c : ascii) : ascii :=
  let n := nat_of_ascii c in
  if ((97 <=? n) && (n <=? 122))%nat then ascii_of_nat (n - 32) else c.

Fixpoint toLocaleUpperCase (s : string) : string :=
  match s with
  | EmptyString => EmptyString
  | String c s' => String (upperChar c) (toLocaleUpperCase s')
  end.

(** [s.replace(/ /g, rep)]: every space replaced. *)
Fixpoint replaceSpaces (rep : string) (s : string) : string :=
  match s with
  | EmptyString => EmptyString
  | String c s' =>
      if Ascii.eqb c " " then rep ++ replaceSpaces rep s'
      else String c (replaceSpaces rep s')
  end.

(** [s.replace(pat, rep)] with a string pattern: the first occurrence
    only ([rep] holds no [$], so it is inserted literally). *)
Fixpoint replaceFirst (pat rep : string) (s : string) : string :=
  if String.prefix pat s then rep ++ drop (String.length pat) s
  else match s with
       | EmptyString => EmptyString
       | String c s' => String c (replaceFirst pat rep s')
       end.

(** [s.replace(/\n$/, "")]: one trailing line feed removed. *)
Fixpoint dropFinalNewline (s : string) : string :=
  match s with
  | EmptyString => EmptyString
  | String c EmptyString => if Ascii.eqb c newline then EmptyString else s
  | String c s' => String c (dropFinalNewline s')
  end.

End JS.

(* ================================================================== *)
(** ** The Change record *)

(** The objects pushed by the extractors and consumed by the Patch
    Applier.  [kind] is the JavaScript property [type]; [end_] is [end]. *)
Record Change : Type := mkChange {
  kind  : option string;
  text  : option string;
  notes : option string;
  start : Z;
  end_  : Z
}.

(* ================================================================== *)
(** ** utils.js *)

Definition DEBUG : bool := true.

Definition LOCALES_en : string := "en-US".
Definition DEFAULT_LOCALE : string := LOCALES_en.

Definition createPlaceholder (value : string) : string :=
  "%%" ++ value ++ "%%".

Definition shortLocale (locale : string) : string :=
  JS.slice locale 0 2.

(** The message of the error thrown by [replaceSubstring],
    [`Invalid indices provided: (${start}, ${end})`]; the text of a
    [TypeError] is the runtime's and is not modelled. *)
Definition message (e : Error) : option string :=
  match e with
  | InvalidIndices s e =>
      Some ("Invalid indices provided: (" ++ JS.showZ s ++ ", "
            ++ JS.showZ e ++ ")")
  | TypeError => None
  end.

(** [change.text.toLocaleUpperCase().replace(/ /g, "..")] *)
Definition emphasize (t : string) : string :=
  JS.replaceSpaces ".." (JS.toLocaleUpperCase t).

(** [replaceSubstring], the module constant [DEBUG] taken as a parameter. *)
Definition replaceSubstringWith (debug : bool) (original : string)
    (change : Change) : Result string :=
  let start := change.(start) in
  let end_ := change.(end_) in
  if ((start <? 0) || (end_ >? JS.len original) || (start >=? end_))%Z then
    Throw (InvalidIndices start end_)
  else
    t <- (if negb debug then Ok (JS.toStr change.(text))
          else t0 <- required change.(text) ;; Ok (emphasize t0)) ;;
    Ok (JS.substring original 0 start ++ t ++ JS.substringFrom original end_).

Definition replaceSubstring : string -> Change -> Result string :=
  replaceSubstringWith DEBUG.

Definition chomp (str : string) : string := JS.dropFinalNewline str.

(** The comparator handed to [sort]: [(a, b) => b.start - a.start]. *)
Definition compareFn (a b : Change) : Z := b.(start) - a.(start).

(** [Array.prototype.sort] is stable: an element is placed after exactly
    those that the comparator orders strictly before it. *)
Fixpoint insertSorted (cmp : Change -> Change -> Z) (x : Change)
    (l : list Change) : list Change :=
  match l with
  | [] => [x]
  | y :: l' =>
      if (cmp x y >? 0)%Z then y :: insertSorted cmp x l' else x :: y :: l'
  end.

Definition sort (cmp : Change -> Change -> Z) (l : list Change) : list Change :=
  fold_right (insertSorted cmp) [] l.

(** The body of the [forEach] callback, [result = replaceSubstring(result,
    change)], on the local variable [result]: when the call throws, the
    assignment does not take place. *)
Definition assignResult (debug : bool) (result : string) (change : Change)
    : option Error * string :=
  match replaceSubstringWith debug result change with
  | Ok r => (None, r)
  | Throw e => (Some e, result)
  end.

(** [forEach] over the sorted array, stopping at the first exception;
    returns the exception, if any, and the last value of [result]. *)
Fixpoint forEachChange (debug : bool) (cs : list Change) (result : string)
    : option Error * string :=
  match cs with
  | [] => (None, result)
  | c :: cs' =>
      match assignResult debug result c with
      | (None, r) => forEachChange debug cs' r
      | (Some e, r) => (Some e, r)
      end
  end.

(** [applyChanges]: the completion of the call, and the contents of the
    caller's [changes] array after it (sorted in place before the loop). *)
Definition applyChangesWith (debug : bool) (content : string)
    (changes : list Change) : Result string * list Change :=
  let sorted := sort compareFn changes in
  (match forEachChange debug sorted content with
   | (None, r) => Ok r
   | (Some e, _) => Throw e
   end, sorted).

Definition applyChanges : string -> list Change -> Result string * list Change :=
  applyChangesWith DEBUG.

(* ================================================================== *)
(** ** The positioned tree handed over by the external parser *)

(** [position.start.offset] and [position.end.offset]. *)
Record Position : Type := mkPosition {
  start_offset : Z;
  end_offset   : Z
}.

(** An element of [node.attributes] of a JSX flow element. *)
Record Attribute : Type := mkAttribute {
  attrName     : string;
  attrValue    : option string;
  attrPosition : option Position
}.

(** [child.source] of an import declaration: [raw], [start], [end]. *)
Record Literal : Type := mkLiteral {
  raw      : string;
  litStart : Z;
  litEnd   : Z
}.

(** An element of [node.data.estree.body]. *)
Record Statement : Type := mkStatement {
  stType : string;
  source : option Literal
}.

Record Program : Type := mkProgram {
  body : list Statement
}.

(** [node.data]: the label marker of a directive's first paragraph, and
    the syntax tree of an ESM block. *)
Record Data : Type := mkData {
  directiveLabel : bool;
  estree         : option Program
}.

#[warnings="-register-all"]
Inductive Node : Type := mkNode {
  type       : string;
  name       : option string;
  url        : option string;
  value      : option string;
  position   : option Position;
  data       : option Data;
  attributes : option (list Attribute);
  children   : option (list Node)
}.

(** In-place updates of a node: [node.url = u] and the replacement of
    the elements of [node.children]. *)
Definition setUrl (node : Node) (u : string) : Node :=
  mkNode node.(type) node.(name) (Some u) node.(value) node.(position)
         node.(data) node.(attributes) node.(children).

Definition setChildren (node : Node) (cs : list Node) : Node :=
  mkNode node.(type) node.(name) node.(url) node.(value) node.(position)
         node.(data) node.(attributes) (Some cs).

(** [a === "literal"] for a possibly-undefined [a]. *)
Definition isString (a : option string) (lit : string) : bool :=
  match a with
  | Some s => String.eqb s lit
  | None => false
  end.

(** [arr[0]] and [arr.slice(-1)[0]]. *)
Definition firstOf {A : Type} (l : list A) : option A := hd_error l.

Fixpoint lastOf {A : Type} (l : list A) : option A :=
  match l with
  | [] => None
  | [x] => Some x
  | _ :: l' => lastOf l'
  end.

(** Sequencing a fallible callback over an array ([map] / [flatMap]). *)
Fixpoint mapM {A B : Type} (f : A -> Result B) (l : list A) : Result (list B) :=
  match l with
  | [] => Ok []
  | a :: l' => b <- f a ;; bs <- mapM f l' ;; Ok (b :: bs)
  end.

(** [arr.filter(x => x != null)] *)
Fixpoint nonNull {A : Type} (l : list (option A)) : list A :=
  match l with
  | [] => []
  | Some a :: l' => a :: nonNull l'
  | None :: l' => nonNull l'
  end.

(* ------------------------------------------------------------------ *)
(** *** The title pattern [/(title:\s* )(.+)(?:\n|$)/]

    (written here with a blank before the first closing parenthesis)

    The backtracking matcher of the runtime, written out for this one
    pattern: greedy quantifiers try the longest repetition first and fall
    back to shorter ones when the rest of the pattern fails. *)

Module TitleRegex.

Record Match : Type := mkMatch {
  index  : Z;        (* match.index *)
  group1 : string;   (* match[1] *)
  group2 : string    (* match[2] *)
}.

Definition code (c : ascii) : nat := nat_of_ascii c.

(** [\s] on ASCII: tab, line feed, vertical tab, form feed, carriage
    return, space. *)
Definition isSpace (c : ascii) : bool :=
  ((9 <=? code c) && (code c <=? 13) || (code c =? 32))%nat.

(** [.] matches everything but the line terminators. *)
Definition isLineTerminator (c : ascii) : bool :=
  ((code c =? 10) || (code c =? 13))%nat.

(** [.* ] (greedy) followed by [(?:\n|$)]; the text taken by the dots.
    When the longer attempt fails there is nothing to fall back to: the
    shorter attempt would need [\n] or the end of input at a character
    that [.] accepts. *)
Fixpoint dotsThenEnd (s : string) : option string :=
  match s with
  | EmptyString => Some EmptyString
  | String c s' =>
      if isLineTerminator c then
        if Ascii.eqb c JS.newline then Some EmptyString else None
      else
        match dotsThenEnd s' with
        | Some v => Some (String c v)
        | None => None
        end
  end.

(** [(.+)(?:\n|$)] *)
Definition valueThenEnd (s : string) : option string :=
  match s with
  | EmptyString => None
  | String c s' =>
      if isLineTerminator c then None
      else option_map (String c) (dotsThenEnd s')
  end.

(** [\s* ] (greedy) followed by [(.+)(?:\n|$)]: the white space taken
    and the second group. *)
Fixpoint spacesThenValue (s : string) : option (string * string) :=
  let stopHere := option_map (fun v => (EmptyString, v)) (valueThenEnd s) in
  match s with
  | EmptyString => stopHere
  | String c s' =>
      if isSpace c then
        match spacesThenValue s' with
        | Some (ws, v) => Some (String c ws, v)
        | None => stopHere
        end
      else stopHere
  end.

(** The whole pattern at the beginning of [s]. *)
Definition matchHere (s : string) : option (string * string) :=
  if String.prefix "title:" s then
    option_map (fun '(ws, v) => ("title:" ++ ws, v))
               (spacesThenValue (JS.drop 6 s))
  else None.

(** The leftmost match, [i] being the offset of [s] in the input. *)
Fixpoint execFrom (i : Z) (s : string) : option Match :=
  match matchHere s with
  | Some (g1, g2) => Some (mkMatch i g1 g2)
  | None =>
      match s with
      | EmptyString => None
      | String _ s' => execFrom (i + 1) s'
      end
  end.

(** [regex.exec(s)] *)
Definition exec (s : string) : option Match := execFrom 0 s.

End TitleRegex.

(* ------------------------------------------------------------------ *)
(** *** Frontmatter and Reference extractors *)

Definition parseFrontmatter (ast : Node) : Result (list Change) :=
  nodes <- required ast.(children) ;;
  match find (fun node => String.eqb node.(type) "yaml") nodes with
  | None => Ok []
  | Some frontmatter =>
      match TitleRegex.exec (JS.toStr frontmatter.(value)) with
      | None => Ok []
      | Some m =>
          let title := m.(TitleRegex.group2) in
          let divider := String "-" (String "-" (String "-" (String JS.newline ""))) in
          let startOffset :=
            JS.len divider + m.(TitleRegex.index) + JS.len m.(TitleRegex.group1) in
          let endOffset := startOffset + JS.len title in
          pos <- required frontmatter.(position) ;;
          Ok [ {| kind := Some "title";
                  text := Some title;
                  notes := Some "title for document";
                  start := pos.(start_offset) + startOffset;
                  end_ := pos.(start_offset) + endOffset |} ]
      end
  end.

(** Replace locale in URL with placeholder. *)
Definition localizeUrl (url : string) : string :=
  let placeholder := createPlaceholder "locale" in
  let locale := shortLocale DEFAULT_LOCALE in
  JS.replaceFirst ("/" ++ locale) ("/" ++ placeholder) url.

(** The callback mapped over [estree.body]: [undefined] for a statement
    that is no import, [null] for an import needing no localization. *)
Definition importChange (child : Statement) : Result (option Change) :=
  if String.eqb child.(stType) "ImportDeclaration" then
    src <- required child.(source) ;;
    let original := src.(raw) in
    let localized := localizeUrl original in
    if String.eqb original localized then Ok None
    else Ok (Some {| kind := Some "Import";
                     text := Some localized;
                     notes := None;
                     start := src.(litStart);
                     end_ := src.(litEnd) |})
  else Ok None.

Definition parseImports (ast : Node) : Result (list Change) :=
  nodes <- required ast.(children) ;;
  perNode <- mapM (fun node =>
                     d <- required node.(data) ;;
                     prog <- required d.(estree) ;;
                     mapM importChange prog.(body))
                  (filter (fun node => String.eqb node.(type) "mdxjsEsm") nodes) ;;
  Ok (nonNull (List.concat perNode)).

(* ------------------------------------------------------------------ *)
(** *** Content Tree Walker *)

(** AST nodes that appear at the top level of document that should be
    parsed for localization. *)
Definition TOP_LEVEL_NODE_TYPES : list string :=
  [ "containerDirective"; "heading"; "image"; "list";
    "mdxJsxFlowElement"; "paragraph"; "table" ].

Definition has (set : list string) (x : string) : bool :=
  existsb (String.eqb x) set.

(** [changes.push(c)] *)
Definition push (changes : list Change) (c : Change) : list Change :=
  (changes ++ [c])%list.

Definition quoted (s : string) : string :=
  String JS.dquote (s ++ String JS.dquote "").

Definition parseAttribute (key : string) (node : Node)
    (changes : list Change) : Result (list Change) :=
  attrs <- required node.(attributes) ;;
  match find (fun attr => String.eqb attr.(attrName) key) attrs with
  | Some attribute =>
      pos <- required attribute.(attrPosition) ;;
      Ok (push changes
            {| kind := None;
               text := attribute.(attrValue);
               notes := Some ("'" ++ key ++ "' attribute for "
                              ++ JS.toStr node.(name));
               start := pos.(start_offset) + JS.len attribute.(attrName) + 1;
               end_ := pos.(end_offset) - 1 |})
  | None => Ok changes   (* console.error only *)
  end.

(** The change pushed for a block: its text and the span from the first
    child's start to the last child's end. *)
Definition blockChange (cs : list Node) (t : option string) (n : option string)
    : Result Change :=
  c0 <- required (firstOf cs) ;;
  p0 <- required c0.(position) ;;
  c1 <- required (lastOf cs) ;;
  p1 <- required c1.(position) ;;
  Ok {| kind := None; text := t; notes := n;
        start := p0.(start_offset); end_ := p1.(end_offset) |}.

(** The change pushed for the label of a directive, [first] being the
    directive's first child. *)
Definition labelChange (directive first : Node) : Result Change :=
  fcs <- required first.(children) ;;
  label <- required (firstOf fcs) ;;
  pos <- required first.(position) ;;
  Ok {| kind := Some "containerDirectiveLabel";
        text := label.(value);
        notes := Some ("title for the " ++ quoted (JS.toStr directive.(name))
                       ++ " callout");
        start := pos.(start_offset) + 1;   (* Omit [ *)
        end_ := pos.(end_offset) - 1       (* Omit ] *) |}.

(** [first.data && first.data.directiveLabel] *)
Definition hasDirectiveLabel (first : Node) : bool :=
  match first.(data) with
  | Some d => d.(directiveLabel)
  | None => false
  end.

Section Walker.

(** [processor.stringify], the serializer of the external processor. *)
Variable stringify : Node -> string.

Section Loops.

Variable parse : Node -> bool -> list Change -> Result (Node * list Change).

(** [node.children.forEach(child => parseNode(child, changes,
    processor, true))] *)
Fixpoint eachAsRoot (cs : list Node) (changes : list Change)
    : Result (list Node * list Change) :=
  match cs with
  | [] => Ok ([], changes)
  | child :: cs' =>
      '(child', changes1) <- parse child true changes ;;
      '(cs'', changes2) <- eachAsRoot cs' changes1 ;;
      Ok (child' :: cs'', changes2)
  end.

(** The loop of [parseChildren] over [node.children], accumulating
    [text]. *)
Fixpoint eachInline (cs : list Node) (text : string) (changes : list Change)
    : Result (list Node * string * list Change) :=
  match cs with
  | [] => Ok ([], text, changes)
  | child :: cs' =>
      '(child', changes1) <- parse child false changes ;;
      let text1 :=
        if String.eqb child'.(type) "code"
        then text ++ String JS.newline "" else text in
      let text2 :=
        if negb (String.eqb child'.(type) "list")
        then text1 ++ chomp (stringify child') else text1 in
      '(cs'', text3, changes2) <- eachInline cs' text2 changes1 ;;
      Ok (child' :: cs'', text3, changes2)
  end.

End Loops.

(** Recursive function for flattening AST Markdown hierarchies into
    localization change(s).  Returns the node after its in-place
    updates together with the [changes] array after the pushes. *)
Fixpoint parseNode (node : Node) (root : bool) (changes : list Change)
    {struct node} : Result (Node * list Change) :=
  let type := node.(type) in
  if String.eqb type "link" then
    u <- required node.(url) ;;
    Ok (setUrl node (localizeUrl u), changes)
  else if String.eqb type "mdxJsxFlowElement" then
    if isString node.(name) "RelativeLink" then
      changes1 <- parseAttribute "title" node changes ;;
      Ok (node, changes1)
    else if isString node.(name) "AccordionItem" then
      changes1 <- parseAttribute "title" node changes ;;
      match node.(children) with
      | None => Throw TypeError
      | Some cs =>
          '(cs', changes2) <- eachAsRoot parseNode cs changes1 ;;
          Ok (setChildren node cs', changes2)
      end
    else Ok (node, changes)
  else if String.eqb type "image" then
    Ok (node, changes)
  else if String.eqb type "list" || String.eqb type "listItem"
          || String.eqb type "table" || String.eqb type "tableRow" then
    match node.(children) with
    | None => Throw TypeError
    | Some cs =>
        '(cs', changes1) <- eachAsRoot parseNode cs changes ;;
        Ok (setChildren node cs', changes1)
    end
  else if String.eqb type "heading" || String.eqb type "paragraph"
          || String.eqb type "tableCell" then
    match node.(children) with
    | None =>
        (* parseChildren returns undefined; node.children[0] throws *)
        if root then Throw TypeError else Ok (node, changes)
    | Some cs =>
        '(cs', text, changes1) <- eachInline parseNode cs "" changes ;;
        if root then
          c <- blockChange cs' (Some text) (Some "") ;;
          Ok (setChildren node cs', push changes1 c)
        else Ok (setChildren node cs', changes1)
    end
  else if String.eqb type "containerDirective" then
    match node.(children) with
    | None => Throw TypeError
    | Some [] => Throw TypeError          (* first.data on undefined *)
    | Some ((first :: rest) as cs) =>
        (* Extract the directive label if exists, e.g., :::tip[See also] *)
        let labelled := hasDirectiveLabel first in
        changes1 <- (if labelled then
                       c <- labelChange node first ;;
                       Ok (push changes c)
                     else Ok changes) ;;
        (* Remove the title child node to create the text *)
        let remaining := if labelled then rest else cs in
        '(cs', text, changes2) <- eachInline parseNode remaining "" changes1 ;;
        c <- blockChange cs' (Some text)
               (Some ("content for the " ++ quoted (JS.toStr node.(name))
                      ++ " callout")) ;;
        Ok (setChildren node cs', push changes2 c)
    end
  else Ok (node, changes).

(** Each child will generate its own change. *)
Definition parseChildrenAsRoot (node : Node) (changes : list Change)
    : Result (Node * list Change) :=
  cs <- required node.(children) ;;
  '(cs', changes1) <- eachAsRoot parseNode cs changes ;;
  Ok (setChildren node cs', changes1).

(** Process the children of nodes into single string ([undefined] when
    the node has no [children] property). *)
Definition parseChildren (node : Node) (changes : list Change)
    : Result (Node * option string * list Change) :=
  match node.(children) with
  | None => Ok (node, None, changes)
  | Some cs =>
      '(cs', text, changes1) <- eachInline parseNode cs "" changes ;;
      Ok (setChildren node cs', Some text, changes1)
  end.

(** The loop of [parseContent] over [ast.children]. *)
Fixpoint eachTopLevel (nodes : list Node) (changes : list Change)
    : Result (list Change) :=
  match nodes with
  | [] => Ok changes
  | node :: nodes' =>
      if negb (String.eqb node.(type) "")
         && has TOP_LEVEL_NODE_TYPES node.(type) then
        '(_, changes1) <- parseNode node true changes ;;
        eachTopLevel nodes' changes1
      else eachTopLevel nodes' changes
  end.

Definition parseContent (ast : Node) : Result (list Change) :=
  nodes <- required ast.(children) ;;
  eachTopLevel nodes [].

(** Create list of localization changes:
    [[...parseFrontmatter(ast), ...parseImports(ast), ...parseContent(ast)]] *)
Definition strings (ast : Node) : Result (list Change) :=
  a <- parseFrontmatter ast ;;
  b <- parseImports ast ;;
  c <- parseContent ast ;;
  Ok (a ++ b ++ c)%list.

End Walker.

(* ------------------------------------------------------------------ *)
(** *** Span predicates of the data model *)

(** [0 <= start < end <= n] *)
Definition spanWithin (n : Z) (c : Change) : bool :=
  ((0 <=? c.(start)) && (c.(start) <? c.(end_)) && (c.(end_) <=? n))%Z.

(** Two half-open spans share an offset. *)
Definition overlap (a b : Change) : bool :=
  ((a.(start) <? b.(end_)) && (b.(start) <? a.(end_)))%Z.

Fixpoint nonOverlapping (l : list Change) : bool :=
  match l with
  | [] => true
  | c :: l' => forallb (fun d => negb (overlap c d)) l' && nonOverlapping l'
  end.

(* ------------------------------------------------------------------ *)
(** *** Reference points for the Patch Applier *)

(** The replacement text as [replaceSubstring] inserts it, for a change
    with a defined text. *)
Definition inserted (debug : bool) (c : Change) : string :=
  if debug then emphasize (JS.toStr c.(text)) else JS.toStr c.(text).

(** The intended outcome of patching [source] with changes listed from
    the highest span down: the text before the highest span with the
    lower changes substituted, the replacement, then the text after the
    span as it was. *)
Fixpoint substituteAll (debug : bool) (source : string) (desc : list Change)
    : string :=
  match desc with
  | [] => source
  | c :: lower =>
      substituteAll debug (JS.substring source 0 c.(start)) lower
      ++ inserted debug c ++ JS.substringFrom source c.(end_)
  end.

(** Changes with a defined text, listed from the highest span down, each
    span non-empty and ending at or before the start of the one listed
    before it (at or before [bound] for the first). *)
Fixpoint descendingChain (bound : Z) (l : list Change) : Prop :=
  match l with
  | [] => True
  | c :: lower =>
      c.(text) <> None /\ 0 <= c.(start) /\ c.(start) < c.(end_)
      /\ c.(end_) <= bound /\ descendingChain c.(start) lower
  end.

(** The order the description of the Patch Applier warns against: the
    same loop over the changes sorted by ascending start.  It is not in
    the code and serves for comparison only. *)
Definition applyAscendingWith (debug : bool) (content : string)
    (changes : list Change) : Result string :=
  match forEachChange debug
          (sort (fun a b => a.(start) - b.(start)) changes) content with
  | (None, r) => Ok r
  | (Some e, _) => Throw e
  end.

(** A change the Patch Applier can take: its span lies within a text of
    length [n] and its text is defined. *)
Definition wellFormed (n : Z) (c : Change) : Prop :=
  spanWithin n c = true /\ c.(text) <> None.


Fixpoint allChars (p : ascii -> bool) (s : string) : bool :=
  match s with
  | EmptyString => true
  | String c s' => p c && allChars p s'
  end.

(* ------------------------------------------------------------------ *)
(** *** Reference points for the extractors *)

(** What the title pattern describes: somewhere in [v] the key
    [title:], white space, a non-empty value free of line terminators,
    and then a line feed or the end of the text. *)
Definition titleFieldAt (v pre ws val rest : string) : Prop :=
  v = pre ++ "title:" ++ ws ++ val ++ rest
  /\ allChars TitleRegex.isSpace ws = true
  /\ val <> ""
  /\ allChars (fun c => negb (TitleRegex.isLineTerminator c)) val = true
  /\ (rest = "" \/ exists rest', rest = String JS.newline rest').


(** [pat] occurs somewhere in [s]. *)
Fixpoint occurs (pat s : string) : bool :=
  String.prefix pat s
  || match s with
     | EmptyString => false
     | String _ s' => occurs pat s'
     end.




(* ------------------------------------------------------------------ *)
(** *** Sample documents, as the external parser positions them *)

Definition leaf (ty v : string) (s e : Z) : Node :=
  mkNode ty None None (Some v) (Some (mkPosition s e)) None None None.

Definition block (ty : string) (s e : Z) (cs : list Node) : Node :=
  mkNode ty None None None (Some (mkPosition s e)) None None (Some cs).

Definition lf : string := String JS.newline "".


Definition guideAst : Node :=
  block "root" 0 26
    [ leaf "yaml" "title: Guide" 0 20;
      block "paragraph" 22 26 [ leaf "text" "Body" 22 26 ] ].

(** A callout holding a paragraph and a one-item list. *)
Definition calloutSource : string :=
  ":::tip" ++ lf ++ "Intro" ++ lf ++ lf ++ "- item" ++ lf ++ ":::".

Definition calloutAst : Node :=
  block "root" 0 24
    [ mkNode "containerDirective" (Some "tip") None None
        (Some (mkPosition 0 24)) None None
        (Some [ block "paragraph" 7 12 [ leaf "text" "Intro" 7 12 ];
                block "list" 14 20
                  [ block "listItem" 14 20
                      [ block "paragraph" 16 20
                          [ leaf "text" "item" 16 20 ] ] ] ]) ].

(** A stand-in for the external serializer on the samples: the values of
    the leaves, concatenated. *)
Fixpoint plainText (n : Node) : string :=
  match n with
  | mkNode _ _ _ v _ _ _ cs =>
      match v, cs with
      | Some s, _ => s
      | None, Some l =>
          (fix all (l : list Node) : string :=
             match l with
             | [] => ""
             | c :: l' => plainText c ++ all l'
             end) l
      | None, None => ""
      end
  end.

(* ------------------------------------------------------------------ *)
(** *** Auxiliary notions for the statements *)

(** The order [sort] leaves the array in. *)
Definition descending (a b : Change) : Prop := start a >= start b.

(** [.] as a predicate on characters. *)
Definition notTerminator (c : ascii) : bool :=
  negb (TitleRegex.isLineTerminator c).

(** The fallback of the white-space loop: no further white space taken. *)
Definition stopHere (s : string) : option (string * string) :=
  option_map (fun v => (EmptyString, v)) (TitleRegex.valueThenEnd s).

(** The changes a computation adds to an array that held [ch]. *)
Definition frame {A : Type} (ch : list Change) (r : Result (A * list Change))
    : Result (A * list Change) :=
  match r with
  | Ok (a, d) => Ok (a, (ch ++ d)%list)
  | Throw e => Throw e
  end.

(** A node on which [parseNode] only appends to the array of changes. *)
Definition appends (stringify : Node -> string) (c : Node) : Prop :=
  forall root ch,
    parseNode stringify c root ch = frame ch (parseNode stringify c root []).

(** Induction over a tree through the lists of children. *)
Definition Node_children_ind (P : Node -> Prop)
    (H : forall n,
        match children n with Some cs => Forall P cs | None => True end ->
        P n)
    : forall n, P n :=
  fix go (n : Node) : P n :=
    H n (match n as n0
               return match children n0 with
                      | Some cs => Forall P cs
                      | None => True
                      end
         with
         | mkNode _ _ _ _ _ _ _ o =>
             match o as o0
                   return match o0 with
                          | Some cs => Forall P cs
                          | None => True
                          end
             with
             | Some l =>
                 (fix all (l : list Node) : Forall P l :=
                    match l with
                    | [] => Forall_nil P
                    | x :: l' => Forall_cons x (go x) (all l')
                    end) l
             | None => I
             end
         end).

(* ------------------------------------------------------------------ *)
(** *** Further notions for the Patch Applier *)

(** By how much a change lengthens the text it is applied to. *)
Definition growth (debug : bool) (c : Change) : Z :=
  JS.len (inserted debug c) - (c.(end_) - c.(start)).

Fixpoint totalGrowth (debug : bool) (l : list Change) : Z :=
  match l with
  | [] => 0
  | c :: l' => growth debug c + totalGrowth debug l'
  end.

(** A span that is invalid whatever the text: negative start or empty. *)
Definition staticallyInvalid (c : Change) : Prop :=
  c.(start) < 0 \/ c.(start) >= c.(end_).

(** Strictly descending order of [start]. *)
Definition strictlyDescending (a b : Change) : Prop := start a > start b.


(* ------------------------------------------------------------------ *)
(** *** Further notions for the extractors *)

(** In a text [pre ++ pat ++ ...] no occurrence of [pat] begins within
    [pre]: the occurrence after [pre] is the first one. *)
Definition firstAt (pat pre : string) : Prop :=
  occurs pat (pre ++ JS.take (String.length pat - 1) pat) = false.


(* ------------------------------------------------------------------ *)
(** *** Further notions for the Content Tree Walker *)



(** The node after the walk of a plain inline child. *)
Definition localizeLink (n : Node) : Node :=
  if String.eqb n.(type) "link" then
    match n.(url) with
    | Some u => setUrl n (localizeUrl u)
    | None => n
    end
  else n.



(** The test of [parseContent] on a top-level node. *)
Definition topLevel (node : Node) : bool :=
  negb (String.eqb node.(type) "") && has TOP_LEVEL_NODE_TYPES node.(type).

(** The changes the walker pushes: no [title] or [Import] tag, and notes
    always present. *)
Definition contentChange (c : Change) : Prop :=
  c.(notes) <> None
  /\ (c.(kind) = None \/ c.(kind) = Some "containerDirectiveLabel").

(** A node whose walk keeps an array of such changes an array of such
    changes. *)
Definition keepsContent (stringify : Node -> string) (n : Node) : Prop :=
  forall root ch n' ch',
    Forall contentChange ch ->
    parseNode stringify n root ch = Ok (n', ch') ->
    Forall contentChange ch'.

(* ------------------------------------------------------------------ *)
(** ** smartling.js: what is computed before and after the requests *)

Module Smartling.



(** The exceptions of this file: the use of an identifier that is not
    declared, the [Error] built by [validateResponse], a response body
    that is no JSON, and a property read on [undefined]. *)
Inductive Failure : Type :=
| ReferenceError (identifier : string)
| RequestFailed (message : string)
| SyntaxError
| PropertyOfUndefined.



Section Responses.

(** The parsed body of a response, and the text that
    [json["response"]["errors"][0].message] contributes to the template
    literal ([None] when one of the property reads hits [undefined]). *)
Variable Json : Type.
Variable firstErrorMessage : Json -> option string.

(** A response: its status and the outcome of [response.json()]
    ([None] when the body cannot be parsed). *)
Record Response : Type := mkResponse {
  status : Z;
  body : option Json
}.

Definition validateResponse (response : Response) (description : string)
    : Failure + Json :=
  match response.(body) with
  | None => inl SyntaxError
  | Some json =>
      if ((response.(status) <? 200) || (response.(status) >? 299))%Z then
        match firstErrorMessage json with
        | None => inl PropertyOfUndefined
        | Some message =>
            inl (RequestFailed
                   ("Failed " ++ description ++ ": " ++ message ++ " ("
                    ++ JS.showZ response.(status) ++ ")"))
        end
      else inr json
  end.

End Responses.

End Smartling.

(* ================================================================== *)
(** * Properties *)

(** ** Facts about the string built-ins *)

Module JSFacts.
Import JS.

Lemma app_empty_r (s : string) : s ++ "" = s.
Proof. induction s as [|c s IH]; simpl; [reflexivity | now rewrite IH]. Qed.

Lemma app_assoc (a b c : string) : (a ++ b) ++ c = a ++ (b ++ c).
Proof. induction a as [|x a IH]; simpl; [reflexivity | now rewrite IH]. Qed.

Lemma length_app (a b : string) :
  String.length (a ++ b) = (String.length a + String.length b)%nat.
Proof. induction a as [|x a IH]; simpl; [reflexivity | now rewrite IH]. Qed.

Lemma len_app (a b : string) : len (a ++ b) = len a + len b.
Proof. unfold len. rewrite length_app. lia. Qed.

Lemma len_nonneg (s : string) : 0 <= len s.
Proof. unfold len. lia. Qed.



Lemma take_drop (n : nat) (s : string) : take n s ++ drop n s = s.
Proof.
  revert s. induction n as [|n IH]; intros [|c s]; simpl; try reflexivity.
  now rewrite IH.
Qed.

Lemma length_take (n : nat) (s : string) :
  String.length (take n s) = Nat.min n (String.length s).
Proof.
  revert s. induction n as [|n IH]; intros [|c s]; simpl; try reflexivity.
  now rewrite IH.
Qed.

Lemma length_drop (n : nat) (s : string) :
  String.length (drop n s) = (String.length s - n)%nat.
Proof.
  revert s. induction n as [|n IH]; intros [|c s]; simpl; try reflexivity.
  now rewrite IH.
Qed.

Lemma take_all (n : nat) (s : string) :
  (String.length s <= n)%nat -> take n s = s.
Proof.
  revert s. induction n as [|n IH]; intros [|c s]; simpl; intros H;
    try reflexivity; try lia.
  now rewrite IH by lia.
Qed.

Lemma take_app_le (n : nat) (a b : string) :
  (n <= String.length a)%nat -> take n (a ++ b) = take n a.
Proof.
  revert a. induction n as [|n IH]; intros [|c a]; simpl; intros H;
    try reflexivity; try lia.
  now rewrite IH by lia.
Qed.

Lemma drop_app_le (n : nat) (a b : string) :
  (n <= String.length a)%nat -> drop n (a ++ b) = drop n a ++ b.
Proof.
  revert a. induction n as [|n IH]; intros [|c a]; simpl; intros H;
    try reflexivity; try lia.
  now rewrite IH by lia.
Qed.

Lemma take_take (n m : nat) (s : string) :
  (n <= m)%nat -> take n (take m s) = take n s.
Proof.
  revert m s. induction n as [|n IH]; intros [|m] [|c s] H; simpl;
    try reflexivity; try lia.
  now rewrite IH by lia.
Qed.

Lemma drop_take (n m : nat) (s : string) :
  drop n (take m s) = take (m - n) (drop n s).
Proof.
  revert m s. induction n as [|n IH]; intros [|m] [|c s]; simpl;
    try reflexivity.
  - now destruct (m - n)%nat.
  - apply IH.
Qed.

Lemma drop_drop (n m : nat) (s : string) :
  drop m (drop n s) = drop (n + m) s.
Proof.
  revert s. induction n as [|n IH]; intros s; simpl; [reflexivity|].
  destruct s as [|c s]; [now destruct m | apply IH].
Qed.

(** Within bounds, [substring] is a [take] of a [drop]. *)
Lemma substring_within (s : string) (a b : Z) :
  0 <= a <= b -> b <= len s ->
  substring s a b = take (Z.to_nat b - Z.to_nat a) (drop (Z.to_nat a) s).
Proof.
  intros Ha Hb. unfold substring, clamp.
  rewrite !Z.max_l, !Z.min_l by lia.
  rewrite Nat.max_r, Nat.min_l by lia. reflexivity.
Qed.

Lemma substring_prefix (s : string) (n : Z) :
  0 <= n <= len s -> substring s 0 n = take (Z.to_nat n) s.
Proof.
  intros H. rewrite substring_within by lia. simpl.
  now rewrite Nat.sub_0_r.
Qed.

Lemma substringFrom_suffix (s : string) (n : Z) :
  0 <= n <= len s -> substringFrom s n = drop (Z.to_nat n) s.
Proof.
  intros H. unfold substringFrom. rewrite substring_within by lia.
  apply take_all. rewrite length_drop. unfold len. lia.
Qed.

(** A text is the concatenation of what lies before, inside and after
    a span. *)
Lemma substring_split (s : string) (a b : Z) :
  0 <= a <= b -> b <= len s ->
  substring s 0 a ++ substring s a b ++ substringFrom s b = s.
Proof.
  intros Ha Hb.
  rewrite substring_prefix, substringFrom_suffix, substring_within by lia.
  rewrite <- (take_drop (Z.to_nat a) s) at 4. f_equal.
  rewrite <- (take_drop (Z.to_nat b - Z.to_nat a) (drop (Z.to_nat a) s)) at 2.
  f_equal.
  rewrite drop_drop. f_equal. lia.
Qed.

Lemma take_app_exact (a b : string) : take (String.length a) (a ++ b) = a.
Proof. induction a as [|x a IH]; simpl; [now destruct b | now rewrite IH]. Qed.

Lemma drop_app_exact (a b : string) : drop (String.length a) (a ++ b) = b.
Proof. induction a as [|x a IH]; simpl; [reflexivity | exact IH]. Qed.

(** Where a text [v] sits in [s] at offset [a], a part of [v] sits at
    the corresponding offset. *)
Lemma substring_part (s v x y z : string) (a : Z) :
  0 <= a -> a + len v <= len s ->
  substring s a (a + len v) = v ->
  v = x ++ y ++ z ->
  substring s (a + len x) (a + len x + len y) = y.
Proof.
  intros Ha Hb Hv Hxyz.
  pose proof (len_nonneg x). pose proof (len_nonneg y).
  pose proof (len_nonneg z).
  assert (Hlen : len v = len x + len y + len z)
    by (rewrite Hxyz, !len_app; lia).
  rewrite substring_within in Hv by lia.
  rewrite substring_within by lia.
  replace (Z.to_nat (a + len v) - Z.to_nat a)%nat with (String.length v) in Hv
    by (unfold len; lia).
  replace (Z.to_nat (a + len x + len y) - Z.to_nat (a + len x))%nat
    with (String.length y) by (unfold len; lia).
  replace (Z.to_nat (a + len x)) with (Z.to_nat a + String.length x)%nat
    by (unfold len; lia).
  rewrite <- drop_drop.
  pose proof (take_drop (String.length v) (drop (Z.to_nat a) s)) as HD.
  rewrite Hv in HD. clear Hv Hlen Hb. subst v.
  rewrite <- HD, !app_assoc, drop_app_exact. apply take_app_exact.
Qed.

End JSFacts.

(** ** Patch Applier *)

Section PatchApplier.

Variable debug : bool.

Lemma range_check (original : string) (c : Change) :
  ((start c <? 0) || (end_ c >? JS.len original) || (start c >=? end_ c))%Z = true
  <-> (start c < 0 \/ end_ c > JS.len original \/ start c >= end_ c).
Proof.
  rewrite !orb_true_iff, Z.ltb_lt, Z.gtb_gt, Z.geb_ge. tauto.
Qed.

Lemma replaceSubstringWith_invalid (original : string) (c : Change) :
  start c < 0 \/ end_ c > JS.len original \/ start c >= end_ c ->
  replaceSubstringWith debug original c
  = Throw (InvalidIndices (start c) (end_ c)).
Proof.
  intros H. apply range_check in H. unfold replaceSubstringWith.
  now rewrite H.
Qed.

Lemma replaceSubstringWith_valid (original : string) (c : Change) :
  0 <= start c -> start c < end_ c -> end_ c <= JS.len original ->
  text c <> None ->
  replaceSubstringWith debug original c
  = Ok (JS.substring original 0 (start c) ++ inserted debug c
        ++ JS.substringFrom original (end_ c)).
Proof.
  intros H0 H1 H2 Ht. unfold replaceSubstringWith, inserted.
  destruct (_ || _ || _)%bool eqn:E.
  - apply range_check in E. lia.
  - destruct (text c) as [t|]; [|congruence].
    now destruct debug.
Qed.

(** Changes confined to a prefix of the text leave the rest alone. *)
Lemma forEachChange_chain (desc : list Change) :
  forall a b : string,
    descendingChain (JS.len a) desc ->
    forEachChange debug desc (a ++ b)
    = (None, substituteAll debug a desc ++ b).
Proof.
  induction desc as [|c lower IH]; intros a b Hc; simpl; [reflexivity|].
  destruct Hc as (Ht & H0 & H1 & H2 & Hlow).
  assert (Hab : end_ c <= JS.len (a ++ b))
    by (rewrite JSFacts.len_app; pose proof (JSFacts.len_nonneg b); lia).
  unfold assignResult.
  rewrite replaceSubstringWith_valid by assumption.
  assert (Hn : (Z.to_nat (start c) <= String.length a)%nat)
    by (unfold JS.len in H2; lia).
  assert (Hm : (Z.to_nat (end_ c) <= String.length a)%nat)
    by (unfold JS.len in H2; lia).
  rewrite JSFacts.substring_prefix, JSFacts.substringFrom_suffix by lia.
  rewrite JSFacts.take_app_le, JSFacts.drop_app_le by assumption.
  rewrite (JSFacts.substring_prefix a), (JSFacts.substringFrom_suffix a) by lia.
  rewrite IH.
  - now rewrite !JSFacts.app_assoc.
  - unfold JS.len. rewrite JSFacts.length_take.
    rewrite Nat.min_l by assumption. now rewrite Z2Nat.id by lia.
Qed.

Lemma forEachChange_substituteAll (source : string) (desc : list Change) :
  descendingChain (JS.len source) desc ->
  forEachChange debug desc source = (None, substituteAll debug source desc).
Proof.
  intros H. pose proof (forEachChange_chain desc source "" H) as E.
  now rewrite !JSFacts.app_empty_r in E.
Qed.

End PatchApplier.

(** *** The sort *)

Lemma insertSorted_perm cmp x l : Permutation (x :: l) (insertSorted cmp x l).
Proof.
  induction l as [|y l IH]; simpl; [apply Permutation_refl|].
  destruct (cmp x y >? 0)%Z.
  - apply perm_trans with (y :: x :: l); [apply perm_swap|].
    now apply perm_skip.
  - apply Permutation_refl.
Qed.

Lemma sort_perm cmp l : Permutation l (sort cmp l).
Proof.
  induction l as [|x l IH]; simpl; [apply perm_nil|].
  apply perm_trans with (x :: sort cmp l); [now apply perm_skip|].
  apply insertSorted_perm.
Qed.

Lemma insertSorted_descending x l :
  StronglySorted descending l ->
  StronglySorted descending (insertSorted compareFn x l).
Proof.
  induction 1 as [|y l Hl IH Hy]; simpl.
  - repeat constructor.
  - unfold compareFn at 1. destruct (start y - start x >? 0)%Z eqn:E.
    + constructor; [exact IH|].
      apply (Permutation_Forall (insertSorted_perm compareFn x l)).
      constructor; [|exact Hy]. unfold descending.
      apply Z.gtb_gt in E. lia.
    + assert (Hxy : descending x y).
      { unfold descending. rewrite Z.gtb_ltb in E. apply Z.ltb_ge in E. lia. }
      constructor; [now constructor|].
      constructor; [exact Hxy|].
      eapply Forall_impl; [|exact Hy].
      unfold descending in *. intros; lia.
Qed.

Lemma sort_descending l : StronglySorted descending (sort compareFn l).
Proof.
  induction l as [|x l IH]; simpl; [constructor|].
  now apply insertSorted_descending.
Qed.

(** A list already in strictly descending order of [start] is left as it
    is; with equal keys the sort, being stable, keeps the given order. *)
Lemma sort_descending_id l :
  StronglySorted descending l -> sort compareFn l = l.
Proof.
  induction 1 as [|x l Hl IH Hx]; simpl; [reflexivity|].
  rewrite IH. destruct l as [|y l]; [reflexivity|]. simpl.
  inversion Hx as [|? ? Hxy _]; subst. unfold descending in Hxy.
  unfold compareFn. destruct (start y - start x >? 0)%Z eqn:E;
    [apply Z.gtb_gt in E; lia | reflexivity].
Qed.

(** *** From pairwise disjoint spans to a descending chain *)

Lemma overlap_sym a b : overlap a b = overlap b a.
Proof. unfold overlap. apply andb_comm. Qed.

Lemma forallb_insertSorted p cmp x l :
  forallb p (insertSorted cmp x l) = p x && forallb p l.
Proof.
  induction l as [|y l IH]; simpl; [reflexivity|].
  destruct (cmp x y >? 0)%Z; simpl; [|reflexivity].
  rewrite IH. now rewrite !andb_assoc, (andb_comm (p y)).
Qed.

Lemma nonOverlapping_insertSorted cmp x l :
  nonOverlapping (x :: l) = true ->
  nonOverlapping (insertSorted cmp x l) = true.
Proof.
  induction l as [|y l IH]; [trivial|].
  intros H. simpl in H.
  apply andb_true_iff in H as [Hx H].
  apply andb_true_iff in Hx as [Hxy Hx].
  apply andb_true_iff in H as [Hy Hl].
  simpl. destruct (cmp x y >? 0)%Z; simpl.
  - rewrite forallb_insertSorted, Hy, IH, overlap_sym, Hxy; [reflexivity|].
    simpl. now rewrite Hx, Hl.
  - now rewrite Hxy, Hx, Hy, Hl.
Qed.

Lemma nonOverlapping_sort cmp l :
  nonOverlapping l = true -> nonOverlapping (sort cmp l) = true.
Proof.
  induction l as [|x l IH]; [trivial|].
  intros H. simpl. apply nonOverlapping_insertSorted.
  simpl in H. apply andb_true_iff in H as [Hx Hl].
  simpl. rewrite IH by assumption. rewrite andb_true_r.
  rewrite forallb_forall in *. intros d Hd. apply Hx.
  apply (Permutation_in d (Permutation_sym (sort_perm cmp l)) Hd).
Qed.

Lemma spanWithin_spec n c :
  spanWithin n c = true <-> 0 <= start c /\ start c < end_ c /\ end_ c <= n.
Proof.
  unfold spanWithin. rewrite !andb_true_iff, !Z.leb_le, Z.ltb_lt. tauto.
Qed.

Lemma descendingChain_sorted l :
  forall n,
    StronglySorted descending l ->
    nonOverlapping l = true ->
    Forall (wellFormed n) l ->
    descendingChain n l.
Proof.
  induction l as [|c lower IH]; intros n Hs Hn Hw; simpl; [exact I|].
  apply StronglySorted_inv in Hs as [Hs Hc].
  simpl in Hn. apply andb_true_iff in Hn as [Hcl Hn].
  inversion Hw as [|? ? [Hspan Ht] Hw']; subst.
  apply spanWithin_spec in Hspan as (H0 & H1 & H2).
  repeat split; try assumption.
  apply IH; try assumption.
  rewrite Forall_forall in *. rewrite forallb_forall in Hcl.
  intros d Hd. specialize (Hc d Hd). specialize (Hcl d Hd).
  destruct (Hw' d Hd) as [Hd1 Hd2]. split; [|exact Hd2].
  apply spanWithin_spec in Hd1 as (D0 & D1 & D2).
  apply spanWithin_spec. unfold descending in Hc.
  apply negb_true_iff in Hcl. unfold overlap in Hcl.
  apply andb_false_iff in Hcl as [E|E]; apply Z.ltb_ge in E; lia.
Qed.

Lemma descendingChain_sort source changes :
  Forall (wellFormed (JS.len source)) changes ->
  nonOverlapping changes = true ->
  descendingChain (JS.len source) (sort compareFn changes).
Proof.
  intros Hw Hn. apply descendingChain_sorted.
  - apply sort_descending.
  - now apply nonOverlapping_sort.
  - apply (Permutation_Forall (sort_perm compareFn changes) Hw).
Qed.

(** *** The debug transform *)


(** *** Claims on the Patch Applier *)

(** C4.  An empty change list is the identity: [applyChanges] returns the
    source text unchanged (and the empty list stays empty). *)
Theorem applyChanges_empty (source : string) :
  applyChanges source [] = (Ok source, []).
Proof. reflexivity. Qed.

(** C2.  [replaceSubstring] throws the invalid-indices error, carrying
    the offending [(start, end)] pair in its message, if and only if
    [start < 0], [end > original.length] or [start >= end]; for a change
    with a defined text these are its only failures; and when the call
    throws, the assignment to [result] does not happen, so the text is
    left as it was. *)
Theorem replaceSubstring_invalid_range (debug : bool) (original : string)
    (change : Change) :
  let s := start change in
  let e := end_ change in
  let invalid := s < 0 \/ e > JS.len original \/ s >= e in
  (replaceSubstringWith debug original change = Throw (InvalidIndices s e)
   <-> invalid)
  /\ (text change <> None ->
      ((exists err, replaceSubstringWith debug original change = Throw err)
       <-> invalid))
  /\ message (InvalidIndices s e)
     = Some ("Invalid indices provided: (" ++ JS.showZ s ++ ", "
             ++ JS.showZ e ++ ")")
  /\ (forall err,
        replaceSubstringWith debug original change = Throw err ->
        assignResult debug original change = (Some err, original)).
Proof.
  intros s e invalid. subst s e invalid.
  assert (Hdec : (start change < 0 \/ end_ change > JS.len original
                  \/ start change >= end_ change)
                 \/ (0 <= start change /\ start change < end_ change
                     /\ end_ change <= JS.len original)) by lia.
  split; [|split; [|split]].
  - split; [|apply replaceSubstringWith_invalid].
    intros H. destruct Hdec as [Hi|(H0 & H1 & H2)]; [exact Hi|].
    unfold replaceSubstringWith in H.
    destruct (_ || _ || _)%bool eqn:E; [apply range_check in E; lia|].
    destruct debug, (text change); simpl in H; discriminate.
  - intros Ht. split.
    + intros [err H]. destruct Hdec as [Hi|(H0 & H1 & H2)]; [exact Hi|].
      rewrite replaceSubstringWith_valid in H by assumption. discriminate.
    + intros Hi. eexists. now apply replaceSubstringWith_invalid.
  - reflexivity.
  - intros err H. unfold assignResult. now rewrite H.
Qed.

(** The invalid-span example: a change with [start = -1]. *)
Lemma replaceSubstring_invalid_range_witness :
  let c := mkChange None (Some "x") None (-1) 2 in
  replaceSubstring "abc" c = Throw (InvalidIndices (-1) 2)
  /\ assignResult DEBUG "abc" c = (Some (InvalidIndices (-1) 2), "abc")
  /\ message (InvalidIndices (-1) 2) = Some "Invalid indices provided: (-1, 2)".
Proof.
  intros c.
  destruct (replaceSubstring_invalid_range DEBUG "abc" c) as (H1 & _ & H3 & H4).
  assert (E : replaceSubstring "abc" c = Throw (InvalidIndices (-1) 2)).
  { apply H1. left. simpl. lia. }
  split; [exact E|]. split; [exact (H4 _ E) | reflexivity].
Defined.

(** C9.  [applyChanges] sorts the caller's array in place: whatever the
    completion of the call (a patched text or an exception raised during
    the loop), the array afterwards holds the same changes ordered by
    descending [start].  The text argument is an immutable string; the
    patched text is the returned value. *)
Theorem applyChanges_sorts_in_place (debug : bool) (content : string)
    (changes : list Change) :
  let after := snd (applyChangesWith debug content changes) in
  after = sort compareFn changes
  /\ Permutation changes after
  /\ StronglySorted descending after.
Proof.
  simpl. split; [reflexivity|]. split.
  - apply sort_perm.
  - apply sort_descending.
Qed.

(** A call that fails on its second step: the first change of the
    sorted array is applied, the second has an invalid span; the array
    stays sorted. *)
Lemma applyChanges_fails_midway :
  let good := mkChange None (Some "xyz") None 6 11 in
  let bad := mkChange None (Some "q") None (-1) 3 in
  applyChanges "hello world" [bad; good]
  = (Throw (InvalidIndices (-1) 3), [good; bad])
  /\ forEachChange DEBUG [good; bad] "hello world"
     = (Some (InvalidIndices (-1) 3), "hello XYZ").
Proof. split; reflexivity. Qed.




(** C3 (as amended).  For every text and every list of well-formed,
    pairwise non-overlapping changes, [applyChanges] sorts the list by
    descending [start] and applies [result = result[0:start] + inserted +
    result[end:]] down the sorted list, [inserted] being the change's
    text after the debug transform; the call succeeds and returns the
    intended substitution at every span.  For two such changes, given in
    either order, that is [source[0:s1] + inserted1 + source[e1:s2] +
    inserted2 + source[e2:]]; ascending-order application instead applies
    the offsets of the second change to the text already shifted by the
    first. *)
Theorem applyChanges_descending_order (source : string) (changes : list Change) :
  Forall (wellFormed (JS.len source)) changes ->
  nonOverlapping changes = true ->
  let sorted := sort compareFn changes in
  Permutation changes sorted
  /\ StronglySorted descending sorted
  /\ applyChanges source changes
     = (Ok (substituteAll DEBUG source sorted), sorted)
  /\ (forall c1 c2,
        changes = [c1; c2] \/ changes = [c2; c1] ->
        start c1 < start c2 ->
        sorted = [c2; c1]
        /\ substituteAll DEBUG source sorted
           = JS.substring source 0 (start c1) ++ inserted DEBUG c1
             ++ JS.substring source (end_ c1) (start c2) ++ inserted DEBUG c2
             ++ JS.substringFrom source (end_ c2)
        /\ applyAscendingWith DEBUG source changes
           = replaceSubstring
               (JS.substring source 0 (start c1) ++ inserted DEBUG c1
                ++ JS.substringFrom source (end_ c1)) c2).
Proof.
  intros Hw Hn sorted.
  split; [apply sort_perm|]. split; [apply sort_descending|]. split.
  - unfold applyChanges, applyChangesWith. fold sorted.
    rewrite forEachChange_substituteAll; [reflexivity|].
    now apply descendingChain_sort.
  - intros c1 c2 Hshape Hlt.
    assert (Hsorted : sorted = [c2; c1]).
    { subst sorted. unfold sort, compareFn.
      destruct Hshape as [-> | ->]; simpl.
      - destruct (start c2 - start c1 >? 0)%Z eqn:E; [reflexivity|].
        rewrite Z.gtb_ltb in E. apply Z.ltb_ge in E. lia.
      - destruct (start c1 - start c2 >? 0)%Z eqn:E; [|reflexivity].
        apply Z.gtb_gt in E. lia. }
    assert (Hchain : descendingChain (JS.len source) [c2; c1]).
    { rewrite <- Hsorted. now apply descendingChain_sort. }
    destruct Hchain as (Ht2 & A0 & A1 & A2 & Ht1 & B0 & B1 & B2 & _).
    split; [exact Hsorted|]. split.
    + rewrite Hsorted. simpl.
      rewrite (JSFacts.substring_prefix source (start c2)) by lia.
      set (n2 := Z.to_nat (start c2)).
      assert (Hlen : JS.len (JS.take n2 source) = start c2).
      { unfold JS.len. rewrite JSFacts.length_take.
        unfold JS.len in A2. subst n2. lia. }
      rewrite (JSFacts.substring_prefix (JS.take n2 source)) by lia.
      rewrite (JSFacts.substringFrom_suffix (JS.take n2 source)) by lia.
      rewrite (JSFacts.substring_prefix source (start c1)) by lia.
      rewrite (JSFacts.substring_within source (end_ c1)) by lia.
      rewrite JSFacts.take_take, JSFacts.drop_take by (subst n2; lia).
      now rewrite !JSFacts.app_assoc.
    + unfold applyAscendingWith.
      assert (Hasc : sort (fun a b => start a - start b) changes = [c1; c2]).
      { unfold sort. destruct Hshape as [-> | ->]; simpl.
        - destruct (start c1 - start c2 >? 0)%Z eqn:E; [|reflexivity].
          apply Z.gtb_gt in E. lia.
        - destruct (start c2 - start c1 >? 0)%Z eqn:E; [reflexivity|].
          rewrite Z.gtb_ltb in E. apply Z.ltb_ge in E. lia. }
      rewrite Hasc. simpl. unfold assignResult.
      rewrite replaceSubstringWith_valid by (try assumption; lia).
      unfold replaceSubstring.
      now destruct (replaceSubstringWith DEBUG _ c2).
Qed.

Lemma applyChanges_descending_order_witness :
  let c1 := mkChange None (Some "a b") None 0 5 in
  let c2 := mkChange None (Some "xyz") None 6 11 in
  applyChanges "hello world" [c1; c2] = (Ok "A..B XYZ", [c2; c1])
  /\ applyAscendingWith DEBUG "hello world" [c1; c2]
     = Throw (InvalidIndices 6 11).
Proof.
  intros c1 c2.
  assert (Hw : Forall (wellFormed (JS.len "hello world")) [c1; c2]).
  { repeat constructor; discriminate. }
  destruct (applyChanges_descending_order "hello world" [c1; c2] Hw eq_refl)
    as (_ & _ & E & H).
  destruct (H c1 c2 (or_introl eq_refl) eq_refl) as (_ & _ & A).
  split; [rewrite E; reflexivity | rewrite A; reflexivity].
Defined.

(** Counterexample to C3 as stated, on two counts.  The text substituted
    is not the change's [text] but its debug transform; and ascending-order
    application does not always produce a different result: on a uniform
    text both orders give the same text although both replacements differ
    in length from their spans. *)
Lemma applyChanges_descending_order_counterexample :
  (let c1 := mkChange None (Some "xy") None 0 1 in
   let c2 := mkChange None (Some "z") None 2 4 in
   fst (applyChanges "abcd" [c1; c2]) = Ok "XYbZ"
   /\ fst (applyChanges "abcd" [c1; c2]) <> Ok "xybz")
  /\
  (let c1 := mkChange None (Some "AA") None 0 1 in
   let c2 := mkChange None (Some "AA") None 3 4 in
   nonOverlapping [c1; c2] = true
   /\ spanWithin (JS.len "AAAAAA") c1 = true
   /\ spanWithin (JS.len "AAAAAA") c2 = true
   /\ JS.len "AA" <> end_ c1 - start c1
   /\ JS.len "AA" <> end_ c2 - start c2
   /\ fst (applyChanges "AAAAAA" [c1; c2]) = Ok "AAAAAAAA"
   /\ applyAscendingWith DEBUG "AAAAAA" [c1; c2] = Ok "AAAAAAAA").
Proof.
  split.
  - split; [reflexivity | discriminate].
  - cbv zeta.
    split; [reflexivity|]. split; [reflexivity|]. split; [reflexivity|].
    split; [discriminate|]. split; [discriminate|].
    split; reflexivity.
Qed.

(** ** Frontmatter Extractor *)

Module TitleRegexFacts.
Import TitleRegex.

Lemma newline_terminator : isLineTerminator JS.newline = true.
Proof. reflexivity. Qed.

(** Soundness of the matcher's pieces. *)
Lemma dotsThenEnd_sound s v :
  dotsThenEnd s = Some v ->
  exists rest, s = v ++ rest
    /\ allChars notTerminator v = true
    /\ (rest = "" \/ exists rest', rest = String JS.newline rest').
Proof.
  revert v. induction s as [|c s IH]; simpl; intros v H.
  - injection H as <-. exists "". auto.
  - destruct (isLineTerminator c) eqn:Ec.
    + destruct (Ascii.eqb c JS.newline) eqn:En; [|discriminate].
      apply Ascii.eqb_eq in En. subst c. injection H as <-.
      exists (String JS.newline s). simpl. eauto.
    + destruct (dotsThenEnd s) as [v'|]; [|discriminate].
      injection H as <-. destruct (IH v' eq_refl) as (rest & -> & Hv & Hr).
      exists rest. simpl. unfold notTerminator at 1. rewrite Ec. auto.
Qed.

Lemma valueThenEnd_sound s v :
  valueThenEnd s = Some v ->
  exists rest, s = v ++ rest
    /\ v <> ""
    /\ allChars notTerminator v = true
    /\ (rest = "" \/ exists rest', rest = String JS.newline rest').
Proof.
  destruct s as [|c s]; simpl; [discriminate|].
  destruct (isLineTerminator c) eqn:Ec; [discriminate|].
  destruct (dotsThenEnd s) as [v'|] eqn:E; [|discriminate].
  simpl. intros H. injection H as <-.
  destruct (dotsThenEnd_sound s v' E) as (rest & -> & Hv & Hr).
  exists rest. simpl. unfold notTerminator at 1. rewrite Ec.
  repeat split; auto. discriminate.
Qed.

Lemma spacesThenValue_sound s ws v :
  spacesThenValue s = Some (ws, v) ->
  exists rest, s = ws ++ v ++ rest
    /\ allChars isSpace ws = true
    /\ v <> ""
    /\ allChars notTerminator v = true
    /\ (rest = "" \/ exists rest', rest = String JS.newline rest').
Proof.
  assert (Hstop : forall s ws v,
             option_map (fun v => (EmptyString, v)) (valueThenEnd s)
             = Some (ws, v) ->
             exists rest, s = ws ++ v ++ rest
               /\ allChars isSpace ws = true /\ v <> ""
               /\ allChars notTerminator v = true
               /\ (rest = "" \/ exists rest', rest = String JS.newline rest')).
  { clear. intros s ws v H.
    destruct (valueThenEnd s) as [v'|] eqn:E; [|discriminate].
    simpl in H. injection H as <- <-.
    destruct (valueThenEnd_sound s v' E) as (rest & -> & ?).
    exists rest. simpl. auto. }
  revert ws v. induction s as [|c s IH]; intros ws v H.
  - now apply Hstop.
  - simpl in H. destruct (isSpace c) eqn:Ec; [|now apply Hstop].
    destruct (spacesThenValue s) as [[ws' v']|] eqn:E; [|now apply Hstop].
    injection H as <- <-.
    destruct (IH ws' v' eq_refl) as (rest & -> & Hws & Hrest).
    exists rest. simpl. rewrite Ec. auto.
Qed.

Lemma prefix_split p s :
  String.prefix p s = true -> s = p ++ JS.drop (String.length p) s.
Proof.
  revert s. induction p as [|a p IH]; intros [|b s]; simpl; intros H;
    try reflexivity; try discriminate.
  destruct (ascii_dec a b) as [->|]; [|discriminate].
  f_equal. now apply IH.
Qed.

Lemma prefix_app p s : String.prefix p (p ++ s) = true.
Proof.
  induction p as [|a p IH]; simpl; [now destruct s|].
  destruct (ascii_dec a a); [exact IH | congruence].
Qed.

Lemma matchHere_sound s g1 g2 :
  matchHere s = Some (g1, g2) ->
  exists ws rest, g1 = "title:" ++ ws /\ titleFieldAt s "" ws g2 rest.
Proof.
  unfold matchHere. destruct (String.prefix "title:" s) eqn:Ep; [|discriminate].
  destruct (spacesThenValue (JS.drop 6 s)) as [[ws v]|] eqn:E; [|discriminate].
  simpl. intros H. injection H as <- <-.
  destruct (spacesThenValue_sound _ _ _ E) as (rest & Hs & Hws & Hv & Hnt & Hr).
  exists ws, rest. split; [reflexivity|].
  unfold titleFieldAt. repeat split; auto.
  apply prefix_split in Ep. simpl String.length in Ep.
  rewrite Ep at 1. now rewrite Hs.
Qed.

(** A match found by [exec] is a title field, at the reported index. *)
Lemma execFrom_sound s :
  forall i m, execFrom i s = Some m ->
  exists pre ws rest,
    titleFieldAt s pre ws (group2 m) rest
    /\ group1 m = "title:" ++ ws
    /\ index m = i + JS.len pre.
Proof.
  induction s as [|c s IH]; intros i m H; simpl in H.
  - discriminate.
  - destruct (matchHere (String c s)) as [[g1 g2]|] eqn:E.
    + injection H as <-. destruct (matchHere_sound _ _ _ E) as (ws & rest & -> & Hf).
      exists "", ws, rest. simpl.
      split; [exact Hf|]. split; [reflexivity|]. unfold JS.len. simpl. lia.
    + destruct (IH _ _ H) as (pre & ws & rest & Hf & Hg & Hi).
      exists (String c pre), ws, rest.
      split; [|split; [exact Hg|]].
      * destruct Hf as (-> & Hf). split; [reflexivity | exact Hf].
      * rewrite Hi. unfold JS.len. simpl String.length. lia.
Qed.










End TitleRegexFacts.




(** ** Reference Extractor *)

Lemma replaceFirst_eq pat rep s :
  JS.replaceFirst pat rep s
  = if String.prefix pat s then rep ++ JS.drop (String.length pat) s
    else match s with
         | EmptyString => EmptyString
         | String c s' => String c (JS.replaceFirst pat rep s')
         end.
Proof. destruct s; reflexivity. Qed.

Lemma occurs_eq pat s :
  occurs pat s
  = String.prefix pat s
    || match s with
       | EmptyString => false
       | String _ s' => occurs pat s'
       end.
Proof. destruct s; reflexivity. Qed.




Lemma localizeUrl_eq url :
  localizeUrl url = JS.replaceFirst "/en" "/%%locale%%" url.
Proof. reflexivity. Qed.







(** ** Content Tree Walker *)

Section WalkerFacts.

Variable stringify : Node -> string.


(** The body of [parseNode], in terms of the helpers of the source. *)
Lemma parseNode_eq (node : Node) (root : bool) (changes : list Change) :
  parseNode stringify node root changes
  = let type := node.(type) in
    if String.eqb type "link" then
      u <- required node.(url) ;;
      Ok (setUrl node (localizeUrl u), changes)
    else if String.eqb type "mdxJsxFlowElement" then
      if isString node.(name) "RelativeLink" then
        changes1 <- parseAttribute "title" node changes ;;
        Ok (node, changes1)
      else if isString node.(name) "AccordionItem" then
        changes1 <- parseAttribute "title" node changes ;;
        parseChildrenAsRoot stringify node changes1
      else Ok (node, changes)
    else if String.eqb type "image" then
      Ok (node, changes)
    else if String.eqb type "list" || String.eqb type "listItem"
            || String.eqb type "table" || String.eqb type "tableRow" then
      parseChildrenAsRoot stringify node changes
    else if String.eqb type "heading" || String.eqb type "paragraph"
            || String.eqb type "tableCell" then
      '(node', text, changes1) <- parseChildren stringify node changes ;;
      if root then
        cs' <- required node'.(children) ;;
        c <- blockChange cs' text (Some "") ;;
        Ok (node', push changes1 c)
      else Ok (node', changes1)
    else if String.eqb type "containerDirective" then
      cs <- required node.(children) ;;
      first <- required (firstOf cs) ;;
      let labelled := hasDirectiveLabel first in
      changes1 <- (if labelled then
                     c <- labelChange node first ;;
                     Ok (push changes c)
                   else Ok changes) ;;
      let remaining := if labelled then tl cs else cs in
      '(cs', text, changes2) <-
        eachInline stringify (parseNode stringify) remaining "" changes1 ;;
      c <- blockChange cs' (Some text)
             (Some ("content for the " ++ quoted (JS.toStr node.(name))
                    ++ " callout")) ;;
      Ok (setChildren node cs', push changes2 c)
    else Ok (node, changes).
Proof.
  destruct node as [ty nm u v p d a cs].
  unfold parseChildrenAsRoot, parseChildren.
  cbn [parseNode type name url children bind required].
  repeat match goal with
         | |- context [if ?b then _ else _] =>
             is_var b || (lazymatch b with context [ty] => idtac
                                         | context [nm] => idtac
                                         | context [hasDirectiveLabel] => idtac
                          end);
             destruct b; cbv iota
         end; try reflexivity.
  all: destruct cs as [[|c0 cs]|]; try reflexivity.
  all: cbn [bind required firstOf hd_error tl].
  all: try (destruct (parseAttribute _ _ _); cbn [bind]; try reflexivity).
  all: try (destruct (eachAsRoot _ _ _) as [[? ?]|]; reflexivity).
  all: try (destruct (eachInline _ _ _ _ _) as [[[? ?] ?]|]; reflexivity).
  all: try (destruct (hasDirectiveLabel _); cbv iota;
            try (destruct (labelChange _ _); cbn [bind]);
            reflexivity).
Qed.

Lemma frame_nil {A} (r : Result (A * list Change)) : frame [] r = r.
Proof. destruct r as [[a d]|]; reflexivity. Qed.

Lemma push_app ch d c : push (ch ++ d)%list c = (ch ++ push d c)%list.
Proof. unfold push. now rewrite <- List.app_assoc. Qed.

Lemma parseAttribute_frame key node ch :
  parseAttribute key node ch
  = match parseAttribute key node [] with
    | Ok d => Ok (ch ++ d)%list
    | Throw e => Throw e
    end.
Proof.
  unfold parseAttribute. destruct (attributes node); [|reflexivity].
  cbn [bind required]. destruct (find _ _) as [attribute|].
  - destruct (attrPosition attribute); reflexivity.
  - now rewrite List.app_nil_r.
Qed.

Lemma eachAsRoot_frame cs :
  Forall (appends stringify) cs ->
  forall ch,
    eachAsRoot (parseNode stringify) cs ch
    = frame ch (eachAsRoot (parseNode stringify) cs []).
Proof.
  induction 1 as [|c cs Hc _ IH]; intros ch; cbn [eachAsRoot].
  - unfold frame. now rewrite List.app_nil_r.
  - rewrite (Hc true ch).
    destruct (parseNode stringify c true []) as [[c' d]|]; [|reflexivity].
    cbn [frame bind]. rewrite (IH (ch ++ d)%list), (IH d).
    destruct (eachAsRoot (parseNode stringify) cs []) as [[cs' d']|];
      [|reflexivity].
    cbn [frame bind]. now rewrite List.app_assoc.
Qed.

Lemma eachInline_frame cs :
  Forall (appends stringify) cs ->
  forall txt ch,
    eachInline stringify (parseNode stringify) cs txt ch
    = frame ch (eachInline stringify (parseNode stringify) cs txt []).
Proof.
  induction 1 as [|c cs Hc _ IH]; intros txt ch; cbn [eachInline].
  - unfold frame. now rewrite List.app_nil_r.
  - rewrite (Hc false ch).
    destruct (parseNode stringify c false []) as [[c' d]|]; [|reflexivity].
    cbn [frame bind]. cbv zeta.
    match goal with
    | |- context [eachInline stringify _ cs ?t (ch ++ d)%list] =>
        rewrite (IH t (ch ++ d)%list), (IH t d);
        destruct (eachInline stringify (parseNode stringify) cs t [])
          as [[[cs' t'] d']|]; [|reflexivity]
    end.
    cbn [frame bind]. now rewrite List.app_assoc.
Qed.

(** [parseNode] only pushes: started on an array holding [ch], it ends
    with [ch] followed by what it pushes on an empty array. *)
Lemma parseNode_frame : forall node, appends stringify node.
Proof.
  apply Node_children_ind. intros node IH root ch.
  rewrite !parseNode_eq. cbv zeta.
  unfold parseChildrenAsRoot, parseChildren.
  repeat match goal with
         | |- context [if ?b then _ else _] =>
             lazymatch b with
             | context [type node] => idtac
             | context [name node] => idtac
             end;
             destruct b; cbv iota
         end.
  - (* link *)
    destruct (url node); cbn [bind required frame]; [|reflexivity].
    now rewrite List.app_nil_r.
  - (* RelativeLink *)
    rewrite parseAttribute_frame.
    destruct (parseAttribute "title" node []); reflexivity.
  - (* AccordionItem *)
    rewrite parseAttribute_frame.
    destruct (parseAttribute "title" node []) as [d|]; [|reflexivity].
    cbn [bind]. destruct (children node) as [cs|]; [|reflexivity].
    cbn [bind required].
    rewrite (eachAsRoot_frame cs IH (ch ++ d)%list), (eachAsRoot_frame cs IH d).
    destruct (eachAsRoot (parseNode stringify) cs []) as [[cs' d']|];
      [|reflexivity].
    cbn [frame bind]. now rewrite List.app_assoc.
  - (* other flow element *)
    cbn [frame]. now rewrite List.app_nil_r.
  - (* image *)
    cbn [frame]. now rewrite List.app_nil_r.
  - (* list, listItem, table, tableRow *)
    destruct (children node) as [cs|]; [|reflexivity].
    cbn [bind required]. rewrite (eachAsRoot_frame cs IH ch).
    destruct (eachAsRoot (parseNode stringify) cs []) as [[cs' d']|];
      reflexivity.
  - (* heading, paragraph, tableCell *)
    destruct (children node) as [cs|] eqn:Ecs.
    + rewrite (eachInline_frame cs IH "" ch).
      destruct (eachInline stringify (parseNode stringify) cs "" [])
        as [[[cs' t'] d']|]; [|reflexivity].
      cbn [frame bind]. destruct root; [|reflexivity].
      cbn [children setChildren required bind].
      destruct (blockChange cs' (Some t') (Some "")); [|reflexivity].
      cbn [bind frame]. now rewrite push_app.
    + cbn [bind]. destruct root.
      * rewrite Ecs. reflexivity.
      * cbn [frame]. now rewrite List.app_nil_r.
  - (* containerDirective *)
    destruct (children node) as [cs|]; [|reflexivity].
    cbn [bind required].
    destruct (firstOf cs) as [c0|] eqn:E0; [|reflexivity].
    cbn [bind required].
    assert (Hrem : Forall (appends stringify) (if hasDirectiveLabel c0 then tl cs else cs)).
    { destruct (hasDirectiveLabel c0); [|exact IH].
      destruct cs; [exact IH|]. now inversion IH. }
    revert Hrem. generalize (if hasDirectiveLabel c0 then tl cs else cs).
    intros remaining Hrem.
    destruct (hasDirectiveLabel c0).
    + destruct (labelChange node c0) as [lc|]; [|reflexivity].
      cbn [bind].
      rewrite (eachInline_frame remaining Hrem "" (push ch lc)),
              (eachInline_frame remaining Hrem "" (push [] lc)).
      destruct (eachInline stringify (parseNode stringify) remaining "" [])
        as [[[cs' t'] d']|]; [|reflexivity].
      cbn [frame bind].
      destruct (blockChange cs' (Some t') _); [|reflexivity].
      cbn [bind frame]. unfold push. cbn [app].
      now rewrite <- !List.app_assoc.
    + cbn [bind].
      rewrite (eachInline_frame remaining Hrem "" ch).
      destruct (eachInline stringify (parseNode stringify) remaining "" [])
        as [[[cs' t'] d']|]; [|reflexivity].
      cbn [frame bind].
      destruct (blockChange cs' (Some t') _); [|reflexivity].
      cbn [bind frame]. now rewrite push_app.
  - (* any other kind *)
    cbn [frame]. now rewrite List.app_nil_r.
Qed.

End WalkerFacts.

Section WalkerClaims.

Variable stringify : Node -> string.

(** The body of [parseNode] on a directive container. *)
Lemma parseNode_directive (node : Node) (root : bool) (changes : list Change) :
  type node = "containerDirective" ->
  parseNode stringify node root changes
  = (cs <- required node.(children) ;;
     first <- required (firstOf cs) ;;
     changes1 <- (if hasDirectiveLabel first then
                    c <- labelChange node first ;;
                    Ok (push changes c)
                  else Ok changes) ;;
     '(cs', text, changes2) <-
       eachInline stringify (parseNode stringify)
         (if hasDirectiveLabel first then tl cs else cs) "" changes1 ;;
     c <- blockChange cs' (Some text)
            (Some ("content for the " ++ quoted (JS.toStr node.(name))
                   ++ " callout")) ;;
     Ok (setChildren node cs', push changes2 c)).
Proof.
  intros Ht. rewrite parseNode_eq, Ht. reflexivity.
Qed.

(** The in-place updates of the walker touch [url] and [children]
    only. *)
Lemma parseNode_position node root ch node' ch' :
  parseNode stringify node root ch = Ok (node', ch') ->
  position node' = position node.
Proof.
  rewrite parseNode_eq. cbv zeta. unfold parseChildrenAsRoot, parseChildren.
  intros H. unfold bind, required in H.
  repeat (match goal with
          | H : context [match ?x with _ => _ end] |- _ => destruct x eqn:?
          end; try discriminate).
  all: repeat match goal with
         | H : Ok _ = Ok _ |- _ => injection H as H; try subst
         | H : (_, _) = (_, _) |- _ => injection H as H; try subst
         end.
  all: reflexivity.
Qed.

Lemma eachInline_positions cs :
  forall txt ch cs' txt' ch',
    eachInline stringify (parseNode stringify) cs txt ch = Ok (cs', txt', ch') ->
    map position cs' = map position cs.
Proof.
  induction cs as [|c cs IH]; intros txt ch cs' txt' ch' H; cbn [eachInline] in H.
  - now injection H as <- _ _.
  - destruct (parseNode stringify c false ch) as [[c' ch1]|] eqn:Ec;
      [|discriminate]. cbn [bind] in H. cbv zeta in H.
    match type of H with
    | context [eachInline stringify _ cs ?t ch1] =>
        destruct (eachInline stringify (parseNode stringify) cs t ch1)
          as [[[cs1 t1] ch2]|] eqn:El; [|discriminate]
    end.
    cbn [bind] in H. injection H as <- _ _. cbn [map].
    f_equal; [apply (parseNode_position _ _ _ _ _ Ec) | apply (IH _ _ _ _ _ El)].
Qed.

Lemma firstOf_positions (cs cs' : list Node) :
  map position cs' = map position cs ->
  option_map position (firstOf cs') = option_map position (firstOf cs).
Proof.
  destruct cs, cs'; cbn; intros H; try discriminate; [reflexivity|].
  now injection H as -> _.
Qed.

Lemma lastOf_positions (cs : list Node) :
  forall cs', map position cs' = map position cs ->
  option_map position (lastOf cs') = option_map position (lastOf cs).
Proof.
  induction cs as [|c cs IH]; intros [|c' cs'] H; cbn in H;
    try discriminate; [reflexivity|].
  injection H as Hc H. destruct cs, cs'; cbn in H; try discriminate.
  - cbn. now rewrite Hc.
  - apply (IH (n0 :: cs') H).
Qed.

Lemma blockChange_positions (cs cs' : list Node) t n :
  map position cs' = map position cs ->
  blockChange cs' t n = blockChange cs t n.
Proof.
  intros H. pose proof (firstOf_positions cs cs' H) as Hf.
  pose proof (lastOf_positions cs cs' H) as Hl.
  unfold blockChange.
  destruct (firstOf cs') as [a'|], (firstOf cs) as [a|]; cbn in Hf;
    try discriminate; [|reflexivity].
  injection Hf as Hf. cbn [bind required]. rewrite Hf.
  destruct (position a); [|reflexivity]. cbn [bind required].
  destruct (lastOf cs') as [b'|], (lastOf cs) as [b|]; cbn in Hl;
    try discriminate; [|reflexivity].
  injection Hl as Hl. cbn [bind required]. now rewrite Hl.
Qed.



(** C7 fails on the code.  For a callout holding a paragraph and a
    list, the item of the list is pushed as a change of its own and the
    callout's content change spans the paragraph and the list, so the
    emitted spans overlap. *)
Theorem strings_overlap_on_callout :
  exists item content,
    strings stringify calloutAst = Ok [item; content]
    /\ (start item, end_ item) = (16, 20)
    /\ (start content, end_ content) = (7, 20)
    /\ spanWithin (JS.len calloutSource) item = true
    /\ spanWithin (JS.len calloutSource) content = true
    /\ overlap item content = true
    /\ nonOverlapping [item; content] = false.
Proof.
  eexists. eexists. split; [reflexivity|].
  cbn [start end_]. repeat split.
Qed.

End WalkerClaims.



(* ================================================================== *)
(** * Further properties of the code *)

(** ** Patch Applier *)

Lemma totalGrowth_perm debug l l' :
  Permutation l l' -> totalGrowth debug l = totalGrowth debug l'.
Proof.
  induction 1; simpl; lia.
Qed.

Lemma substituteAll_length debug desc :
  forall a,
    descendingChain (JS.len a) desc ->
    JS.len (substituteAll debug a desc) = JS.len a + totalGrowth debug desc.
Proof.
  induction desc as [|c lower IH]; intros a Hc; simpl; [lia|].
  destruct Hc as (Ht & H0 & H1 & H2 & Hlow).
  rewrite JSFacts.substring_prefix, JSFacts.substringFrom_suffix by lia.
  assert (Hs : JS.len (JS.take (Z.to_nat (start c)) a) = start c).
  { unfold JS.len. rewrite JSFacts.length_take. unfold JS.len in H2. lia. }
  rewrite !JSFacts.len_app, IH by (rewrite Hs; exact Hlow).
  rewrite Hs. unfold growth, JS.len at 2. rewrite JSFacts.length_drop.
  unfold JS.len in *. lia.
Qed.

(** X1.  For well-formed, pairwise non-overlapping changes the call
    succeeds and the length of the patched text is the length of the
    source plus, for every change, the length of the inserted text minus
    the length of the span it replaces. *)
Theorem applyChanges_length (source : string) (changes : list Change) :
  Forall (wellFormed (JS.len source)) changes ->
  nonOverlapping changes = true ->
  exists patched,
    fst (applyChanges source changes) = Ok patched
    /\ JS.len patched = JS.len source + totalGrowth DEBUG changes.
Proof.
  intros Hw Hn. pose proof (descendingChain_sort source changes Hw Hn) as Hc.
  exists (substituteAll DEBUG source (sort compareFn changes)). split.
  - unfold applyChanges, applyChangesWith.
    now rewrite forEachChange_substituteAll.
  - rewrite substituteAll_length by exact Hc.
    now rewrite <- (totalGrowth_perm DEBUG _ _ (sort_perm compareFn changes)).
Qed.

Lemma applyChanges_length_witness :
  let c1 := mkChange None (Some "a b") None 0 5 in
  let c2 := mkChange None (Some "xyz") None 6 11 in
  exists patched,
    fst (applyChanges "hello world" [c1; c2]) = Ok patched
    /\ JS.len patched = 8.
Proof.
  intros c1 c2.
  assert (Hw : Forall (wellFormed (JS.len "hello world")) [c1; c2])
    by (repeat constructor; discriminate).
  destruct (applyChanges_length "hello world" [c1; c2] Hw eq_refl)
    as (patched & E & L).
  exists patched. split; [exact E | exact L].
Defined.

(** *** Independence of the order in which the changes are listed *)

Lemma descendingChain_below b l :
  descendingChain b l -> Forall (fun d => start d < b /\ end_ d <= b) l.
Proof.
  revert b. induction l as [|d l IH]; intros b H; constructor.
  - destruct H as (_ & D0 & D1 & D2 & _). lia.
  - destruct H as (_ & D0 & D1 & D2 & Hl).
    eapply Forall_impl; [|exact (IH _ Hl)]. simpl. intros; lia.
Qed.

Lemma descendingChain_strict n l :
  descendingChain n l -> StronglySorted strictlyDescending l.
Proof.
  revert n. induction l as [|c lower IH]; intros n H; [constructor|].
  destruct H as (_ & H0 & H1 & H2 & Hlow). constructor; [now apply (IH _ Hlow)|].
  eapply Forall_impl; [|exact (descendingChain_below _ _ Hlow)].
  unfold strictlyDescending. simpl. intros; lia.
Qed.

(** A strictly descending list and a descending list with the same
    elements are the same list. *)
Lemma sorted_perm_unique l1 :
  forall l2,
    StronglySorted strictlyDescending l1 ->
    StronglySorted descending l2 ->
    Permutation l1 l2 -> l1 = l2.
Proof.
  induction l1 as [|h1 t1 IH]; intros l2 H1 H2 Hp.
  - now apply Permutation_nil in Hp.
  - destruct l2 as [|h2 t2];
      [apply Permutation_sym, Permutation_nil in Hp; discriminate|].
    apply StronglySorted_inv in H1 as [H1 F1].
    apply StronglySorted_inv in H2 as [H2 F2].
    assert (Hh : h1 = h2).
    { assert (I1 : In h1 (h2 :: t2))
        by (apply (Permutation_in _ Hp); now left).
      assert (I2 : In h2 (h1 :: t1))
        by (apply (Permutation_in _ (Permutation_sym Hp)); now left).
      destruct I1 as [E|I1]; [now symmetry|].
      destruct I2 as [E|I2]; [exact E|].
      rewrite Forall_forall in F1, F2.
      specialize (F1 _ I2). specialize (F2 _ I1).
      unfold strictlyDescending in F1. unfold descending in F2. lia. }
    subst h2. f_equal. apply IH; try assumption.
    now apply Permutation_cons_inv in Hp.
Qed.

(** X2.  For well-formed, pairwise non-overlapping changes the outcome
    does not depend on the order in which the caller lists them: any
    rearrangement of the list gives the same patched text and leaves the
    array in the same order. *)
Theorem applyChanges_order_independent
    (source : string) (changes changes' : list Change) :
  Forall (wellFormed (JS.len source)) changes ->
  nonOverlapping changes = true ->
  Permutation changes changes' ->
  applyChanges source changes' = applyChanges source changes.
Proof.
  intros Hw Hn Hp.
  assert (Hs : sort compareFn changes = sort compareFn changes').
  { apply sorted_perm_unique.
    - apply (descendingChain_strict (JS.len source)).
      now apply descendingChain_sort.
    - apply sort_descending.
    - apply perm_trans with changes;
        [apply Permutation_sym, sort_perm|].
      apply perm_trans with changes'; [exact Hp | apply sort_perm]. }
  unfold applyChanges, applyChangesWith. now rewrite Hs.
Qed.

Lemma applyChanges_order_independent_witness :
  let c1 := mkChange None (Some "a b") None 0 5 in
  let c2 := mkChange None (Some "xyz") None 6 11 in
  applyChanges "hello world" [c2; c1] = applyChanges "hello world" [c1; c2].
Proof.
  intros c1 c2.
  apply (applyChanges_order_independent "hello world" [c1; c2] [c2; c1]).
  - repeat constructor; discriminate.
  - reflexivity.
  - apply perm_swap.
Defined.

(** *** What lies outside the spans *)

Lemma substituteAll_frame debug desc :
  forall a m M,
    descendingChain (JS.len a) desc ->
    0 <= m -> m <= M -> M <= JS.len a ->
    Forall (fun c => m <= start c /\ end_ c <= M) desc ->
    exists middle,
      substituteAll debug a desc
      = JS.substring a 0 m ++ middle ++ JS.substringFrom a M.
Proof.
  induction desc as [|c lower IH]; intros a m M Hc Hm HmM HM Hb.
  - exists (JS.substring a m M). simpl. symmetry.
    apply JSFacts.substring_split; lia.
  - destruct Hc as (Ht & H0 & H1 & H2 & Hlow).
    inversion Hb as [|? ? [Hmc HcM] Hb']; subst.
    simpl.
    assert (Hs : JS.len (JS.substring a 0 (start c)) = start c).
    { rewrite JSFacts.substring_prefix by lia.
      unfold JS.len. rewrite JSFacts.length_take. unfold JS.len in H2. lia. }
    destruct (IH (JS.substring a 0 (start c)) m (start c)) as (mid & Emid);
      try lia; [now rewrite Hs| |].
    { pose proof (descendingChain_below _ _ Hlow) as Hbelow.
      rewrite Forall_forall in *. intros d Hd.
      destruct (Hbelow d Hd). destruct (Hb' d Hd). lia. }
    rewrite Emid. clear Emid IH.
    exists (mid ++ inserted debug c ++ JS.substring a (end_ c) M).
    assert (E1 : JS.substring (JS.substring a 0 (start c)) 0 m
                 = JS.substring a 0 m).
    { rewrite (JSFacts.substring_prefix _ m) by (rewrite Hs; lia).
      rewrite !JSFacts.substring_prefix by lia.
      apply JSFacts.take_take. lia. }
    assert (E2 : JS.substringFrom (JS.substring a 0 (start c)) (start c) = "").
    { rewrite JSFacts.substringFrom_suffix by (rewrite Hs; lia).
      rewrite <- Hs at 1. unfold JS.len. rewrite Nat2Z.id.
      generalize (JS.substring a 0 (start c)). clear.
      induction s as [|x s IHs]; [reflexivity | exact IHs]. }
    assert (E3 : JS.substringFrom a (end_ c)
                 = JS.substring a (end_ c) M ++ JS.substringFrom a M).
    { rewrite !JSFacts.substringFrom_suffix, JSFacts.substring_within by lia.
      rewrite <- (JSFacts.take_drop (Z.to_nat M - Z.to_nat (end_ c))
                    (JS.drop (Z.to_nat (end_ c)) a)) at 1.
      rewrite JSFacts.drop_drop. do 2 f_equal. lia. }
    rewrite E1, E2, E3, !JSFacts.app_assoc. reflexivity.
Qed.

(** X3.  What lies before the lowest span and after the highest span is
    kept: when every span lies between the offsets [m] and [M], the
    patched text is the first [m] characters of the source, some middle
    part, and the source from offset [M] on. *)
Theorem applyChanges_outside_untouched
    (source : string) (changes : list Change) (m M : Z) :
  Forall (wellFormed (JS.len source)) changes ->
  nonOverlapping changes = true ->
  0 <= m -> m <= M -> M <= JS.len source ->
  Forall (fun c => m <= start c /\ end_ c <= M) changes ->
  exists middle,
    fst (applyChanges source changes)
    = Ok (JS.substring source 0 m ++ middle ++ JS.substringFrom source M).
Proof.
  intros Hw Hn Hm HmM HM Hb.
  pose proof (descendingChain_sort source changes Hw Hn) as Hc.
  destruct (substituteAll_frame DEBUG (sort compareFn changes) source m M)
    as (middle & E); try assumption.
  { apply (Permutation_Forall (sort_perm compareFn changes) Hb). }
  exists middle. unfold applyChanges, applyChangesWith.
  rewrite forEachChange_substituteAll by exact Hc. simpl. now rewrite E.
Qed.

Lemma applyChanges_outside_untouched_witness :
  exists middle,
    fst (applyChanges "# Hello world" [ mkChange None (Some "you") None 8 13 ])
    = Ok ("# Hello " ++ middle ++ "").
Proof.
  destruct (applyChanges_outside_untouched "# Hello world"
              [ mkChange None (Some "you") None 8 13 ] 8 13)
    as (middle & E); try (simpl; lia); try reflexivity.
  - repeat constructor; discriminate.
  - repeat constructor; simpl; lia.
  - exists middle. exact E.
Defined.

(** *** Failures *)

Lemma forEachChange_statically_invalid debug cs :
  forall c result,
    In c cs -> staticallyInvalid c ->
    exists e r, forEachChange debug cs result = (Some e, r).
Proof.
  induction cs as [|c0 cs IH]; intros c result Hin Hbad; [contradiction|].
  simpl. unfold assignResult.
  destruct (replaceSubstringWith debug result c0) as [r|e] eqn:E.
  - destruct Hin as [->|Hin].
    + rewrite replaceSubstringWith_invalid in E; [discriminate|].
      destruct Hbad; [left | right; right]; assumption.
    + apply (IH c r Hin Hbad).
  - eauto.
Qed.

(** X4.  A change whose span is invalid whatever the text (negative
    start, or start not below end) makes the whole call fail, wherever it
    stands in the list and whatever the other changes are: no patched
    text is returned. *)
Theorem applyChanges_rejects_invalid_span
    (content : string) (changes : list Change) (c : Change) :
  In c changes ->
  staticallyInvalid c ->
  exists e, fst (applyChanges content changes) = Throw e.
Proof.
  intros Hin Hbad. unfold applyChanges, applyChangesWith.
  destruct (forEachChange_statically_invalid DEBUG (sort compareFn changes)
              c content) as (e & r & E).
  - apply (Permutation_in _ (sort_perm compareFn changes) Hin).
  - exact Hbad.
  - exists e. simpl. now rewrite E.
Qed.

Lemma applyChanges_rejects_invalid_span_witness :
  exists e,
    fst (applyChanges "hello world"
           [ mkChange None (Some "q") None (-1) 3;
             mkChange None (Some "xyz") None 6 11 ]) = Throw e.
Proof.
  apply (applyChanges_rejects_invalid_span "hello world" _
           (mkChange None (Some "q") None (-1) 3)).
  - left. reflexivity.
  - left. simpl. lia.
Defined.

Lemma forEachChange_error debug cs :
  forall result e r,
    Forall (fun c => text c <> None) cs ->
    forEachChange debug cs result = (Some e, r) ->
    exists c, In c cs /\ e = InvalidIndices (start c) (end_ c).
Proof.
  induction cs as [|c0 cs IH]; intros result e r Ht H; simpl in H;
    [discriminate|].
  inversion Ht as [|? ? Ht0 Ht']; subst.
  unfold assignResult in H.
  assert (Hdec : (start c0 < 0 \/ end_ c0 > JS.len result
                  \/ start c0 >= end_ c0)
                 \/ (0 <= start c0 /\ start c0 < end_ c0
                     /\ end_ c0 <= JS.len result)) by lia.
  destruct Hdec as [Hbad|(H0 & H1 & H2)].
  - rewrite (replaceSubstringWith_invalid debug result c0 Hbad) in H.
    injection H as <- _. exists c0. split; [now left | reflexivity].
  - rewrite replaceSubstringWith_valid in H by assumption.
    destruct (IH _ _ _ Ht' H) as (c & Hin & He).
    exists c. split; [now right | exact He].
Qed.

(** X5.  When every change has a defined text, the only way the call
    fails is the invalid-indices error, and the pair it reports is the
    span of one of the changes of the list. *)
Theorem applyChanges_failure_names_a_change
    (content : string) (changes : list Change) (e : Error) :
  Forall (fun c => text c <> None) changes ->
  fst (applyChanges content changes) = Throw e ->
  exists c, In c changes /\ e = InvalidIndices (start c) (end_ c).
Proof.
  intros Ht H. unfold applyChanges, applyChangesWith in H. simpl in H.
  destruct (forEachChange DEBUG (sort compareFn changes) content)
    as [[e'|] r] eqn:E; [|discriminate].
  injection H as ->.
  destruct (forEachChange_error DEBUG (sort compareFn changes) content e r)
    as (c & Hin & He); [|exact E|].
  - apply (Permutation_Forall (sort_perm compareFn changes) Ht).
  - exists c. split; [|exact He].
    apply (Permutation_in _ (Permutation_sym (sort_perm compareFn changes)) Hin).
Qed.

Lemma applyChanges_failure_names_a_change_witness :
  exists c,
    In c [ mkChange None (Some "x") None 2 9 ]
    /\ InvalidIndices 2 9 = InvalidIndices (start c) (end_ c).
Proof.
  apply (applyChanges_failure_names_a_change "abc"
           [ mkChange None (Some "x") None 2 9 ] (InvalidIndices 2 9)).
  - repeat constructor; discriminate.
  - reflexivity.
Defined.

(** *** The debug transform and [chomp] *)

Lemma len_String c s : JS.len (String c s) = 1 + JS.len s.
Proof. unfold JS.len. simpl String.length. lia. Qed.




Lemma dropFinalNewline_eq c s :
  JS.dropFinalNewline (String c s)
  = match s with
    | EmptyString => if Ascii.eqb c JS.newline then EmptyString else String c s
    | String _ _ => String c (JS.dropFinalNewline s)
    end.
Proof. destruct s; reflexivity. Qed.

(** X7.  [chomp] removes a final line feed and nothing else: a text with
    a line feed appended is given back, and any text is either left as it
    is or is its [chomp] followed by one line feed. *)
Theorem chomp_final_newline (s : string) :
  chomp (s ++ lf) = s
  /\ (chomp s = s \/ s = chomp s ++ lf).
Proof.
  unfold chomp, lf. split.
  - induction s as [|c s IH]; [reflexivity|].
    change (String c s ++ String JS.newline "")
      with (String c (s ++ String JS.newline "")).
    rewrite dropFinalNewline_eq. destruct s as [|d s]; [reflexivity|].
    change (String d s ++ String JS.newline "")
      with (String d (s ++ String JS.newline "")) in *.
    cbv iota. now rewrite IH.
  - induction s as [|c s IH]; [now left|].
    rewrite dropFinalNewline_eq. destruct s as [|d s].
    + destruct (Ascii.eqb c JS.newline) eqn:E; [|now left].
      apply Ascii.eqb_eq in E. subst c. now right.
    + destruct IH as [IH|IH].
      * left. now rewrite IH.
      * right.
        change (String c (String d s)
                = String c (JS.dropFinalNewline (String d s)
                            ++ String JS.newline "")).
        f_equal. exact IH.
Qed.

(** ** Reference and Frontmatter extractors *)

Lemma prefix_within p :
  forall x y,
    String.prefix p (x ++ y) = true ->
    (String.length p <= String.length x)%nat ->
    String.prefix p x = true.
Proof.
  induction p as [|a p IH]; intros x y H L.
  - now destruct x.
  - destruct x as [|b x]; [simpl in L; lia|].
    simpl in *. destruct (ascii_dec a b); [|discriminate].
    apply (IH x y H). lia.
Qed.

Lemma firstAt_cons pat c pre post :
  firstAt pat (String c pre) ->
  String.prefix pat (String c pre ++ pat ++ post) = false
  /\ firstAt pat pre.
Proof.
  unfold firstAt. intros H.
  change (String c pre ++ JS.take (String.length pat - 1) pat)
    with (String c (pre ++ JS.take (String.length pat - 1) pat)) in H.
  rewrite occurs_eq in H. apply orb_false_iff in H as [Hp Ho].
  split; [|exact Ho].
  destruct (String.prefix pat (String c pre ++ pat ++ post)) eqn:E;
    [|reflexivity].
  rewrite <- Hp. symmetry.
  apply (prefix_within pat _ (JS.drop (String.length pat - 1) pat ++ post)).
  - change (String c (pre ++ JS.take (String.length pat - 1) pat))
      with (String c pre ++ JS.take (String.length pat - 1) pat).
    rewrite JSFacts.app_assoc, <- (JSFacts.app_assoc (JS.take _ pat)).
    now rewrite JSFacts.take_drop.
  - simpl. rewrite JSFacts.length_app, JSFacts.length_take. lia.
Qed.

Lemma replaceFirst_first pat rep post :
  forall pre,
    firstAt pat pre ->
    JS.replaceFirst pat rep (pre ++ pat ++ post) = pre ++ rep ++ post.
Proof.
  induction pre as [|c pre IH]; intros H.
  - change ("" ++ pat ++ post) with (pat ++ post).
    rewrite replaceFirst_eq, TitleRegexFacts.prefix_app.
    now rewrite JSFacts.drop_app_exact.
  - destruct (firstAt_cons pat c pre post H) as [Hp Hf].
    rewrite replaceFirst_eq, Hp.
    change (String c pre ++ pat ++ post) with (String c (pre ++ pat ++ post)).
    cbv iota. now rewrite (IH Hf).
Qed.

(** X8.  [localizeUrl] rewrites the first [/en] of the text and only
    that one: whatever precedes it and whatever follows it, further
    occurrences included, is kept as it is, and the text grows by eight
    characters. *)
Theorem localizeUrl_first_occurrence (pre post : string) :
  firstAt "/en" pre ->
  localizeUrl (pre ++ "/en" ++ post) = pre ++ "/%%locale%%" ++ post
  /\ JS.len (localizeUrl (pre ++ "/en" ++ post))
     = JS.len (pre ++ "/en" ++ post) + 8.
Proof.
  intros H. rewrite localizeUrl_eq, (replaceFirst_first "/en" _ post pre H).
  split; [reflexivity|].
  rewrite !JSFacts.len_app. unfold JS.len. simpl String.length. lia.
Qed.

Lemma localizeUrl_first_occurrence_witness :
  localizeUrl "/docs/en/guide/en" = "/docs/%%locale%%/guide/en".
Proof.
  apply (localizeUrl_first_occurrence "/docs" "/guide/en"). reflexivity.
Defined.

(** *** The title pattern on a text whose first title field is known *)







(** X10.  Whatever the tree, when the Frontmatter Extractor returns it
    returns at most one change; the change is tagged [title], its text
    is a non-empty single line, its span is as long as its text, and it
    begins at or after the fourth offset of the metadata block. *)
Theorem parseFrontmatter_shape (ast : Node) (changes : list Change) :
  parseFrontmatter ast = Ok changes ->
  changes = []
  \/ exists c t fm pos,
       changes = [c]
       /\ kind c = Some "title" /\ text c = Some t
       /\ t <> "" /\ allChars notTerminator t = true
       /\ end_ c = start c + JS.len t
       /\ In fm (match children ast with Some l => l | None => [] end)
       /\ type fm = "yaml" /\ position fm = Some pos
       /\ start_offset pos + 4 <= start c.
Proof.
  unfold parseFrontmatter. destruct (children ast) as [nodes|]; [|discriminate].
  cbn [bind required].
  destruct (find _ nodes) as [fm|] eqn:Ef; [|intros H; injection H as <-; now left].
  destruct (TitleRegex.exec (JS.toStr (value fm))) as [m|] eqn:E;
    [|intros H; injection H as <-; now left].
  destruct (position fm) as [pos|] eqn:Ep; [|discriminate].
  cbn [bind required].
  match goal with |- Ok ?l = Ok _ -> _ => set (emitted := l) end.
  intros H. assert (Hch : changes = emitted) by congruence.
  subst changes emitted. clear H. right.
  destruct (TitleRegexFacts.execFrom_sound _ _ _ E)
    as (pre & ws & rest & (_ & _ & Hne & Hnt & _) & Hg & Hi).
  apply find_some in Ef as [Hin Hty]. apply String.eqb_eq in Hty.
  eexists. exists (TitleRegex.group2 m), fm, pos.
  split; [reflexivity|]. cbn [kind text start end_].
  change (JS.len (String "-" (String "-" (String "-" (String JS.newline "")))))
    with 4.
  pose proof (JSFacts.len_nonneg pre).
  pose proof (JSFacts.len_nonneg (TitleRegex.group1 m)).
  split; [reflexivity|]. split; [reflexivity|]. split; [exact Hne|].
  split; [exact Hnt|]. split; [lia|]. split; [exact Hin|].
  split; [exact Hty|]. split; [exact Ep|]. lia.
Qed.

Lemma parseFrontmatter_shape_witness :
  let changes := [ {| kind := Some "title"; text := Some "Guide";
                      notes := Some "title for document";
                      start := 11; end_ := 16 |} ] in
  changes = []
  \/ exists c t fm pos,
       changes = [c]
       /\ kind c = Some "title" /\ text c = Some t
       /\ t <> "" /\ allChars notTerminator t = true
       /\ end_ c = start c + JS.len t
       /\ In fm (match children guideAst with Some l => l | None => [] end)
       /\ type fm = "yaml" /\ position fm = Some pos
       /\ start_offset pos + 4 <= start c.
Proof.
  apply (parseFrontmatter_shape guideAst). reflexivity.
Defined.

(** ** Content Tree Walker *)

Section WalkerExtras.

Variable stringify : Node -> string.

Lemma localizeLink_type n : type (localizeLink n) = type n.
Proof.
  unfold localizeLink. destruct (String.eqb (type n) "link"); [|reflexivity].
  now destruct (url n).
Qed.





(** *** Containers that are flattened *)

Lemma eachAsRoot_concat cs rs :
  Forall2 (fun c r => parseNode stringify c true [] = Ok r) cs rs ->
  forall ch,
    eachAsRoot (parseNode stringify) cs ch
    = Ok (map fst rs, (ch ++ List.concat (map snd rs))%list).
Proof.
  induction 1 as [|c [c' d] cs rs Hc _ IH]; intros ch; cbn [eachAsRoot].
  - simpl. now rewrite List.app_nil_r.
  - rewrite (parseNode_frame stringify c true ch), Hc. cbn [frame bind].
    rewrite IH. cbn [bind map fst snd List.concat].
    now rewrite List.app_assoc.
Qed.

(** X12.  A list, list item, table or table row pushes no change of its
    own: when each child, walked as a root on its own, gives some
    changes, the node gives exactly those changes, child after child in
    document order, whether or not it is itself at the root. *)
Theorem parseNode_flattens
    (node : Node) (cs : list Node) (rs : list (Node * list Change))
    (root : bool) (changes : list Change) :
  has [ "list"; "listItem"; "table"; "tableRow" ] (type node) = true ->
  children node = Some cs ->
  Forall2 (fun c r => parseNode stringify c true [] = Ok r) cs rs ->
  parseNode stringify node root changes
  = Ok (setChildren node (map fst rs),
        (changes ++ List.concat (map snd rs))%list).
Proof.
  intros Hty Hcs Hrs.
  assert (Hbranch : parseNode stringify node root changes
                    = parseChildrenAsRoot stringify node changes).
  { rewrite parseNode_eq. cbv zeta.
    unfold has in Hty. cbn [existsb] in Hty. rewrite orb_false_r in Hty.
    destruct (String.eqb (type node) "list") eqn:E1;
      [apply String.eqb_eq in E1; rewrite E1; reflexivity|].
    destruct (String.eqb (type node) "listItem") eqn:E2;
      [apply String.eqb_eq in E2; rewrite E2; reflexivity|].
    destruct (String.eqb (type node) "table") eqn:E3;
      [apply String.eqb_eq in E3; rewrite E3; reflexivity|].
    destruct (String.eqb (type node) "tableRow") eqn:E4; [|discriminate].
    apply String.eqb_eq in E4. rewrite E4. reflexivity. }
  rewrite Hbranch. unfold parseChildrenAsRoot. rewrite Hcs.
  cbn [bind required]. now rewrite (eachAsRoot_concat cs rs Hrs).
Qed.

(** *** The top level *)

Lemma eachTopLevel_concat nodes :
  forall rs ch,
    Forall2 (fun n r => parseNode stringify n true [] = Ok r)
            (filter topLevel nodes) rs ->
    eachTopLevel stringify nodes ch
    = Ok (ch ++ List.concat (map snd rs))%list.
Proof.
  induction nodes as [|n nodes IH]; intros rs ch H; cbn [eachTopLevel].
  - inversion H. simpl. now rewrite List.app_nil_r.
  - cbn [filter] in H. fold (topLevel n). destruct (topLevel n).
    + inversion H as [|? [n' d] ? rs' Hn Hrest]; subst.
      rewrite (parseNode_frame stringify n true ch), Hn. cbn [frame bind].
      rewrite (IH rs' _ Hrest). cbn [map snd List.concat].
      now rewrite List.app_assoc.
    + apply (IH rs ch H).
Qed.

(** X13.  [parseContent] returns, in document order, the changes that
    each top-level node of an allow-listed kind gives when walked on its
    own as a root; the nodes of any other kind (metadata and ESM blocks,
    code, block quotes, ...) contribute nothing and are not walked. *)
Theorem parseContent_concat
    (ast : Node) (nodes : list Node) (rs : list (Node * list Change)) :
  children ast = Some nodes ->
  Forall2 (fun n r => parseNode stringify n true [] = Ok r)
          (filter topLevel nodes) rs ->
  parseContent stringify ast = Ok (List.concat (map snd rs)).
Proof.
  intros Hnodes Hrs. unfold parseContent. rewrite Hnodes.
  cbn [bind required]. now rewrite (eachTopLevel_concat nodes rs [] Hrs).
Qed.

Lemma eachTopLevel_fails nodes n e :
  In n nodes -> topLevel n = true ->
  parseNode stringify n true [] = Throw e ->
  forall ch, exists e', eachTopLevel stringify nodes ch = Throw e'.
Proof.
  intros Hin Htop Hn. induction nodes as [|h nodes IH]; [contradiction|].
  intros ch. cbn [eachTopLevel]. fold (topLevel h).
  destruct (topLevel h) eqn:Eh.
  - rewrite (parseNode_frame stringify h true ch).
    destruct (parseNode stringify h true []) as [[h' d]|e0] eqn:Ep.
    + cbn [frame bind]. destruct Hin as [->|Hin]; [congruence|].
      apply (IH Hin).
    + cbn [frame bind]. eauto.
  - destruct Hin as [->|Hin]; [congruence|]. apply (IH Hin).
Qed.

(** X14.  One failing top-level node fails the whole extraction: when
    the walk of an allow-listed top-level node throws, [parseContent]
    throws as well and returns no partial list. *)
Theorem parseContent_fails
    (ast n : Node) (nodes : list Node) (e : Error) :
  children ast = Some nodes ->
  In n nodes -> topLevel n = true ->
  parseNode stringify n true [] = Throw e ->
  exists e', parseContent stringify ast = Throw e'.
Proof.
  intros Hnodes Hin Htop Hn. unfold parseContent. rewrite Hnodes.
  cbn [bind required]. apply (eachTopLevel_fails nodes n e Hin Htop Hn).
Qed.

(** *** Attributes of JSX flow elements *)

Lemma len_substring_within s a b :
  0 <= a <= b -> b <= JS.len s -> JS.len (JS.substring s a b) = b - a.
Proof.
  intros Ha Hb. rewrite JSFacts.substring_within by assumption.
  unfold JS.len in *. rewrite JSFacts.length_take, JSFacts.length_drop. lia.
Qed.

(** X15.  For an attribute written [key=], a quote, the value, a quote,
    and positioned on exactly that text, [parseAttribute] pushes one
    change whose text is the value but whose span begins one offset
    early: sliced out of the source it reads the opening quote followed
    by the value. *)
Theorem parseAttribute_span_keeps_quote
    (key : string) (node : Node) (attrs : list Attribute)
    (attribute : Attribute) (v : string) (q : ascii) (pos : Position)
    (source : string) (changes : list Change) :
  attributes node = Some attrs ->
  find (fun attr => String.eqb attr.(attrName) key) attrs = Some attribute ->
  attrValue attribute = Some v ->
  attrPosition attribute = Some pos ->
  0 <= start_offset pos <= end_offset pos ->
  end_offset pos <= JS.len source ->
  JS.substring source (start_offset pos) (end_offset pos)
  = key ++ "=" ++ String q (v ++ String q "") ->
  exists c,
    parseAttribute key node changes = Ok (push changes c)
    /\ text c = Some v
    /\ JS.substring source (start c) (end_ c) = String q v
    /\ end_ c - start c = JS.len v + 1.
Proof.
  intros Hattrs Hfind Hv Hpos Hord Hend Hsrc.
  unfold parseAttribute. rewrite Hattrs. cbn [bind required].
  rewrite Hfind, Hpos. cbn [bind required]. eexists.
  split; [reflexivity|]. cbn [text start end_].
  apply find_some in Hfind as [_ Hname]. apply String.eqb_eq in Hname.
  rewrite Hname, Hv.
  set (total := key ++ "=" ++ String q (v ++ String q "")) in *.
  assert (Hlen : end_offset pos = start_offset pos + JS.len total).
  { rewrite <- Hsrc, len_substring_within by lia. lia. }
  assert (Htot : JS.len total = JS.len key + 1 + (1 + JS.len v) + 1).
  { subst total. rewrite JSFacts.len_app.
    change ("=" ++ String q (v ++ String q ""))
      with (String "=" (String q (v ++ String q ""))).
    rewrite !len_String, JSFacts.len_app, len_String.
    change (JS.len "") with 0. lia. }
  split; [reflexivity|]. split; [|lia].
  pose proof (JSFacts.substring_part source total (key ++ "=") (String q v)
                (String q "") (start_offset pos)) as P.
  rewrite JSFacts.len_app, !len_String in P.
  change (JS.len "") with 0 in P.
  replace (JS.len key + (1 + 0)) with (JS.len key + 1) in P by lia.
  replace (start_offset pos + JS.len key + 1)
    with (start_offset pos + (JS.len key + 1)) by lia.
  replace (end_offset pos - 1)
    with (start_offset pos + (JS.len key + 1) + (1 + JS.len v)) by lia.
  apply P; try lia.
  - now rewrite <- Hlen.
  - subst total. rewrite JSFacts.app_assoc. reflexivity.
Qed.

(** X16.  On a JSX flow element the missing [title] attribute is not an
    error: a [RelativeLink] without it is returned unchanged with nothing
    pushed, an [AccordionItem] without it still has its children walked
    as roots; and an element of any other name is left alone altogether,
    its attributes and children never looked at. *)
Theorem parseNode_flow_element
    (node : Node) (root : bool) (changes : list Change) :
  type node = "mdxJsxFlowElement" ->
  (forall attrs,
     attributes node = Some attrs ->
     find (fun attr => String.eqb attr.(attrName) "title") attrs = None ->
     (isString (name node) "RelativeLink" = true ->
      parseNode stringify node root changes = Ok (node, changes))
     /\ (isString (name node) "AccordionItem" = true ->
         parseNode stringify node root changes
         = parseChildrenAsRoot stringify node changes))
  /\ (isString (name node) "RelativeLink" = false ->
      isString (name node) "AccordionItem" = false ->
      parseNode stringify node root changes = Ok (node, changes)).
Proof.
  intros Hty. split.
  - intros attrs Hattrs Hfind.
    assert (Hpa : parseAttribute "title" node changes = Ok changes).
    { unfold parseAttribute. rewrite Hattrs. cbn [bind required].
      now rewrite Hfind. }
    split; intros Hname; rewrite parseNode_eq, Hty; cbv zeta;
      cbn [String.eqb Ascii.eqb Bool.eqb]; cbv iota.
    + now rewrite Hname, Hpa.
    + destruct (isString (name node) "RelativeLink") eqn:E.
      * unfold isString in *. destruct (name node) as [s|]; [|discriminate].
        apply String.eqb_eq in E. subst s. discriminate.
      * now rewrite Hname, Hpa.
  - intros H1 H2. rewrite parseNode_eq, Hty. cbv zeta.
    cbn [String.eqb Ascii.eqb Bool.eqb]. cbv iota. now rewrite H1, H2.
Qed.

(** *** What the walker pushes *)

Lemma parseAttribute_content key node ch ch' :
  Forall contentChange ch ->
  parseAttribute key node ch = Ok ch' ->
  Forall contentChange ch'.
Proof.
  intros Hch. unfold parseAttribute.
  destruct (attributes node); [|discriminate]. cbn [bind required].
  destruct (find _ _) as [attribute|]; [|intros H; now injection H as <-].
  destruct (attrPosition attribute); [|discriminate]. cbn [bind required].
  intros H. injection H as <-. unfold push. apply Forall_app. split; [exact Hch|].
  constructor; [|constructor]. split; [discriminate | now left].
Qed.

Lemma blockChange_content cs t n c :
  blockChange cs t (Some n) = Ok c -> contentChange c.
Proof.
  unfold blockChange.
  destruct (firstOf cs) as [c0|]; [|discriminate]. cbn [bind required].
  destruct (position c0); [|discriminate]. cbn [bind required].
  destruct (lastOf cs) as [c1|]; [|discriminate]. cbn [bind required].
  destruct (position c1); [|discriminate]. cbn [bind required].
  intros H. injection H as <-. split; [discriminate | now left].
Qed.

Lemma labelChange_content node first c :
  labelChange node first = Ok c -> contentChange c.
Proof.
  unfold labelChange.
  destruct (children first) as [fcs|]; [|discriminate]. cbn [bind required].
  destruct (firstOf fcs); [|discriminate]. cbn [bind required].
  destruct (position first); [|discriminate]. cbn [bind required].
  intros H. injection H as <-. split; [discriminate | now right].
Qed.

Lemma eachAsRoot_content cs :
  Forall (keepsContent stringify) cs ->
  forall ch cs' ch',
    Forall contentChange ch ->
    eachAsRoot (parseNode stringify) cs ch = Ok (cs', ch') ->
    Forall contentChange ch'.
Proof.
  induction 1 as [|c cs Hc _ IH]; intros ch cs' ch' Hch H; cbn [eachAsRoot] in H.
  - now injection H as _ <-.
  - destruct (parseNode stringify c true ch) as [[c1 ch1]|] eqn:E;
      [|discriminate]. cbn [bind] in H.
    destruct (eachAsRoot (parseNode stringify) cs ch1) as [[cs2 ch2]|] eqn:E2;
      [|discriminate]. cbn [bind] in H. injection H as _ <-.
    apply (IH ch1 cs2 ch2); [|exact E2]. apply (Hc true ch c1 ch1 Hch E).
Qed.

Lemma eachInline_content cs :
  Forall (keepsContent stringify) cs ->
  forall txt ch cs' txt' ch',
    Forall contentChange ch ->
    eachInline stringify (parseNode stringify) cs txt ch = Ok (cs', txt', ch') ->
    Forall contentChange ch'.
Proof.
  induction 1 as [|c cs Hc _ IH]; intros txt ch cs' txt' ch' Hch H;
    cbn [eachInline] in H.
  - now injection H as _ _ <-.
  - destruct (parseNode stringify c false ch) as [[c1 ch1]|] eqn:E;
      [|discriminate]. cbn [bind] in H. cbv zeta in H.
    match type of H with
    | context [eachInline stringify _ cs ?t ch1] =>
        destruct (eachInline stringify (parseNode stringify) cs t ch1)
          as [[[cs2 t2] ch2]|] eqn:E2; [|discriminate]
    end.
    cbn [bind] in H. injection H as _ _ <-.
    eapply IH; [|exact E2]. apply (Hc false ch c1 ch1 Hch E).
Qed.

Lemma push_content ch c :
  Forall contentChange ch -> contentChange c -> Forall contentChange (push ch c).
Proof.
  intros Hch Hc. unfold push. apply Forall_app. split; [exact Hch|].
  now constructor.
Qed.

Lemma parseNode_keepsContent : forall node, keepsContent stringify node.
Proof.
  apply Node_children_ind. intros node IH root ch node' ch' Hch.
  rewrite parseNode_eq. cbv zeta. unfold parseChildrenAsRoot, parseChildren.
  repeat match goal with
         | |- context [if ?b then _ else _] =>
             lazymatch b with
             | context [type node] => idtac
             | context [name node] => idtac
             end;
             destruct b; cbv iota
         end.
  - (* link *)
    destruct (url node); [|discriminate]. intros H. now injection H as _ <-.
  - (* RelativeLink *)
    destruct (parseAttribute "title" node ch) as [ch1|] eqn:E; [|discriminate].
    intros H. injection H as _ <-. apply (parseAttribute_content _ _ _ _ Hch E).
  - (* AccordionItem *)
    destruct (parseAttribute "title" node ch) as [ch1|] eqn:E; [|discriminate].
    cbn [bind]. destruct (children node) as [cs|]; [|discriminate].
    cbn [bind required].
    destruct (eachAsRoot (parseNode stringify) cs ch1) as [[cs2 ch2]|] eqn:E2;
      [|discriminate].
    intros H. injection H as _ <-.
    apply (eachAsRoot_content cs IH ch1 cs2 ch2); [|exact E2].
    apply (parseAttribute_content _ _ _ _ Hch E).
  - intros H. now injection H as _ <-.
  - intros H. now injection H as _ <-.
  - (* list, listItem, table, tableRow *)
    destruct (children node) as [cs|]; [|discriminate]. cbn [bind required].
    destruct (eachAsRoot (parseNode stringify) cs ch) as [[cs2 ch2]|] eqn:E2;
      [|discriminate].
    intros H. injection H as _ <-.
    apply (eachAsRoot_content cs IH ch cs2 ch2 Hch E2).
  - (* heading, paragraph, tableCell *)
    destruct (children node) as [cs|] eqn:Ecs.
    + destruct (eachInline stringify (parseNode stringify) cs "" ch)
        as [[[cs2 t2] ch2]|] eqn:E2; [|discriminate].
      cbn [bind].
      pose proof (eachInline_content cs IH "" ch cs2 t2 ch2 Hch E2) as Hch2.
      destruct root; [|intros H; now injection H as _ <-].
      cbn [children setChildren required bind].
      destruct (blockChange cs2 (Some t2) (Some "")) as [c|] eqn:Eb;
        [|discriminate].
      intros H. injection H as _ <-.
      apply push_content; [exact Hch2 | apply (blockChange_content _ _ _ _ Eb)].
    + cbn [bind]. destruct root.
      * rewrite Ecs. discriminate.
      * intros H. now injection H as _ <-.
  - (* containerDirective *)
    destruct (children node) as [cs|]; [|discriminate]. cbn [bind required].
    destruct (firstOf cs) as [c0|] eqn:E0; [|discriminate].
    cbn [bind required].
    assert (Hrem : Forall (keepsContent stringify)
                     (if hasDirectiveLabel c0 then tl cs else cs)).
    { destruct (hasDirectiveLabel c0); [|exact IH].
      destruct cs; [exact IH|]. now inversion IH. }
    revert Hrem. generalize (if hasDirectiveLabel c0 then tl cs else cs).
    intros remaining Hrem.
    destruct (if hasDirectiveLabel c0
              then c <- labelChange node c0 ;; Ok (push ch c)
              else Ok ch) as [ch1|] eqn:E1; [|discriminate].
    assert (Hch1 : Forall contentChange ch1).
    { destruct (hasDirectiveLabel c0); [|now injection E1 as <-].
      destruct (labelChange node c0) as [lc|] eqn:El; [|discriminate].
      injection E1 as <-.
      apply push_content; [exact Hch | apply (labelChange_content _ _ _ El)]. }
    cbn [bind].
    destruct (eachInline stringify (parseNode stringify) remaining "" ch1)
      as [[[cs2 t2] ch2]|] eqn:E2; [|discriminate].
    cbn [bind].
    destruct (blockChange cs2 (Some t2) _) as [c|] eqn:Eb; [|discriminate].
    intros H. injection H as _ <-.
    apply push_content;
      [apply (eachInline_content remaining Hrem "" ch1 cs2 t2 ch2 Hch1 E2)
      |apply (blockChange_content _ _ _ _ Eb)].
  - intros H. now injection H as _ <-.
Qed.

Lemma eachTopLevel_content nodes :
  forall ch ch',
    Forall contentChange ch ->
    eachTopLevel stringify nodes ch = Ok ch' ->
    Forall contentChange ch'.
Proof.
  induction nodes as [|n nodes IH]; intros ch ch' Hch H; cbn [eachTopLevel] in H.
  - now injection H as <-.
  - destruct (negb (String.eqb (type n) "") && has TOP_LEVEL_NODE_TYPES (type n)).
    + destruct (parseNode stringify n true ch) as [[n1 ch1]|] eqn:E;
        [|discriminate]. cbn [bind] in H.
      apply (IH ch1 ch'); [|exact H].
      apply (parseNode_keepsContent n true ch n1 ch1 Hch E).
    + apply (IH ch ch' Hch H).
Qed.

(** X17.  Every change of the Content Tree Walker carries notes and is
    either untagged or tagged [containerDirectiveLabel]: the walker never
    produces a change tagged as a title or as an import, whatever the
    tree. *)
Theorem parseContent_changes (ast : Node) (changes : list Change) :
  parseContent stringify ast = Ok changes ->
  Forall contentChange changes.
Proof.
  unfold parseContent. destruct (children ast) as [nodes|]; [|discriminate].
  cbn [bind required]. apply eachTopLevel_content. constructor.
Qed.

(** X18.  A directive container whose first child carries no label
    marker keeps all its children and pushes no label change: what the
    children push comes first, and then the content change from the first
    child's start to the last child's end, its notes naming the
    directive. *)
Theorem directive_without_label
    (node first : Node) (rest cs' : list Node)
    (root : bool) (changes nested : list Change) (txt : string)
    (c1 : Node) (p0 p1 : Position) :
  type node = "containerDirective" ->
  children node = Some (first :: rest) ->
  hasDirectiveLabel first = false ->
  eachInline stringify (parseNode stringify) (first :: rest) "" []
  = Ok (cs', txt, nested) ->
  position first = Some p0 ->
  lastOf (first :: rest) = Some c1 -> position c1 = Some p1 ->
  let contentC :=
    {| kind := None;
       text := Some txt;
       notes := Some ("content for the " ++ quoted (JS.toStr (name node))
                      ++ " callout");
       start := start_offset p0;
       end_ := end_offset p1 |} in
  parseNode stringify node root changes
  = Ok (setChildren node cs', (changes ++ nested ++ [contentC])%list)
  /\ List.length cs' = S (List.length rest).
Proof.
  intros Ht Hcs Hlabel Hwalk P0 H1 P1 contentC.
  rewrite (parseNode_directive stringify node root changes Ht), Hcs.
  cbn [bind required firstOf hd_error]. rewrite Hlabel. cbn [bind].
  rewrite eachInline_frame
    by (apply Forall_forall; intros; apply parseNode_frame).
  rewrite Hwalk. cbn [frame bind].
  pose proof (eachInline_positions stringify _ _ _ _ _ _ Hwalk) as Hpos.
  rewrite (blockChange_positions (first :: rest) cs') by exact Hpos.
  unfold blockChange. cbn [firstOf hd_error bind required].
  rewrite P0, H1. cbn [bind required]. rewrite P1. cbn [bind required].
  fold contentC. split.
  - unfold push. now rewrite <- List.app_assoc.
  - apply (f_equal (@List.length _)) in Hpos.
    rewrite !List.length_map in Hpos. exact Hpos.
Qed.

End WalkerExtras.


(** The list of the callout sample. *)
Lemma parseNode_flattens_witness :
  let para := block "paragraph" 16 20 [ leaf "text" "item" 16 20 ] in
  let item := block "listItem" 14 20 [ para ] in
  let node := block "list" 14 20 [ item ] in
  parseNode plainText node false []
  = Ok (node, [ {| kind := None; text := Some "item"; notes := Some "";
                   start := 16; end_ := 20 |} ]).
Proof.
  intros para item node.
  apply (parseNode_flattens plainText node [ item ]
           [ (item, [ {| kind := None; text := Some "item"; notes := Some "";
                         start := 16; end_ := 20 |} ]) ] false []).
  - reflexivity.
  - reflexivity.
  - constructor; [reflexivity | constructor].
Defined.

Lemma parseContent_concat_witness :
  parseContent plainText guideAst
  = Ok [ {| kind := None; text := Some "Body"; notes := Some "";
            start := 22; end_ := 26 |} ].
Proof.
  apply (parseContent_concat plainText guideAst
           [ leaf "yaml" "title: Guide" 0 20;
             block "paragraph" 22 26 [ leaf "text" "Body" 22 26 ] ]
           [ (block "paragraph" 22 26 [ leaf "text" "Body" 22 26 ],
              [ {| kind := None; text := Some "Body"; notes := Some "";
                   start := 22; end_ := 26 |} ]) ]).
  - reflexivity.
  - constructor; [reflexivity | constructor].
Defined.

(** A paragraph followed by a callout without children. *)
Lemma parseContent_fails_witness :
  let empty := mkNode "containerDirective" (Some "tip") None None
                 (Some (mkPosition 6 16)) None None (Some []) in
  let para := block "paragraph" 0 4 [ leaf "text" "Body" 0 4 ] in
  exists e, parseContent plainText (block "root" 0 16 [ para; empty ]) = Throw e.
Proof.
  intros empty para.
  apply (parseContent_fails plainText (block "root" 0 16 [ para; empty ])
           empty [ para; empty ] TypeError).
  - reflexivity.
  - right. left. reflexivity.
  - reflexivity.
  - reflexivity.
Defined.

(** The element [<RelativeLink title="Home" />]. *)
Lemma parseAttribute_span_keeps_quote_witness :
  let source := "<RelativeLink title=" ++ quoted "Home" ++ " />" in
  let attribute := mkAttribute "title" (Some "Home") (Some (mkPosition 14 26)) in
  let node := mkNode "mdxJsxFlowElement" (Some "RelativeLink") None None
                (Some (mkPosition 0 29)) None (Some [ attribute ]) (Some []) in
  exists c,
    parseAttribute "title" node [] = Ok (push [] c)
    /\ text c = Some "Home"
    /\ JS.substring source (start c) (end_ c) = String JS.dquote "Home"
    /\ end_ c - start c = JS.len "Home" + 1.
Proof.
  intros source attribute node.
  apply (parseAttribute_span_keeps_quote "title" node [ attribute ] attribute
           "Home" JS.dquote (mkPosition 14 26) source []);
    try reflexivity.
  - simpl. lia.
  - discriminate.
Defined.

Lemma parseNode_flow_element_witness :
  let node := mkNode "mdxJsxFlowElement" (Some "RelativeLink") None None
                (Some (mkPosition 0 16)) None (Some []) (Some []) in
  parseNode plainText node true [] = Ok (node, []).
Proof.
  intros node.
  apply (proj1 (proj1 (parseNode_flow_element plainText node true [] eq_refl)
                  [] eq_refl eq_refl)).
  reflexivity.
Defined.

Lemma parseContent_changes_witness :
  Forall contentChange
    (match parseContent plainText calloutAst with
     | Ok changes => changes
     | Throw _ => []
     end).
Proof.
  apply (parseContent_changes plainText calloutAst). reflexivity.
Defined.

(** The callout [:::note], a line [Body] and the closing fence. *)
Lemma directive_without_label_witness :
  let para := block "paragraph" 8 12 [ leaf "text" "Body" 8 12 ] in
  let node := mkNode "containerDirective" (Some "note") None None
                (Some (mkPosition 0 16)) None None (Some [ para ]) in
  parseNode plainText node true []
  = Ok (node, [ {| kind := None; text := Some "Body";
                   notes := Some ("content for the " ++ quoted "note"
                                  ++ " callout");
                   start := 8; end_ := 12 |} ]).
Proof.
  intros para node.
  exact (proj1 (directive_without_label plainText node para [] [ para ]
                  true [] [] "Body" para (mkPosition 8 12) (mkPosition 8 12)
                  eq_refl eq_refl eq_refl eq_refl eq_refl eq_refl eq_refl)).
Defined.

(** ** smartling.js *)



(** X20.  [validateResponse] hands the parsed body back exactly when the
    body is JSON and the status lies between 200 and 299; with any other
    status it throws, and the message of its error, when the error entry
    can be read, ends with the status in parentheses. *)
Theorem validateResponse_status
    (Json : Type) (firstErrorMessage : Json -> option string)
    (response : Smartling.Response Json) (description : string) :
  (forall json,
     Smartling.validateResponse Json firstErrorMessage response description
     = inr json
     <-> Smartling.body Json response = Some json
         /\ 200 <= Smartling.status Json response <= 299)
  /\ (forall message,
        Smartling.validateResponse Json firstErrorMessage response description
        = inl (Smartling.RequestFailed message) ->
        exists reason,
          message = "Failed " ++ description ++ ": " ++ reason ++ " ("
                    ++ JS.showZ (Smartling.status Json response) ++ ")").
Proof.
  unfold Smartling.validateResponse. split.
  - intros json. destruct (Smartling.body Json response) as [j|].
    + destruct ((_ <? 200) || (_ >? 299))%Z eqn:E.
      * apply orb_true_iff in E. rewrite Z.ltb_lt, Z.gtb_gt in E.
        split.
        -- destruct (firstErrorMessage j); discriminate.
        -- intros [_ H]. lia.
      * apply orb_false_iff in E as [E1 E2].
        apply Z.ltb_ge in E1. rewrite Z.gtb_ltb in E2. apply Z.ltb_ge in E2.
        split.
        -- intros H. injection H as <-. split; [reflexivity | lia].
        -- intros [H _]. now injection H as <-.
    + split; [discriminate | intros [H _]; discriminate].
  - intros message. destruct (Smartling.body Json response) as [j|];
      [|discriminate].
    destruct ((_ <? 200) || (_ >? 299))%Z; [|discriminate].
    destruct (firstErrorMessage j) as [reason|]; [|discriminate].
    intros H. injection H as <-. now exists reason.
Qed.

Lemma validateResponse_status_witness :
  Smartling.validateResponse string (fun _ => None)
    (Smartling.mkResponse string 201 (Some "{}")) "job creation in Smartling"
  = inr "{}".
Proof.
  apply (proj1 (validateResponse_status string (fun _ => None)
                  (Smartling.mkResponse string 201 (Some "{}"))
                  "job creation in Smartling")).
  split; [reflexivity | simpl; lia].
Defined.
